(** * Exemplar reservoir and gRPC client utilities: a shallow embedding

    The development follows two source files of the repository:

    - [exemplar/ExemplarReservoir.ts]: the classes [StorageItem] and
      [FixedSizeExemplarReservoirBase];
    - [grpc-js/clientUtils.ts]: the streaming part of
      [makeGrpcClientRemoteCall] and [getMetadata].

    JavaScript objects live in a store indexed by their identity, so that an
    attributes object offered to a slot, the object deleted from at read
    time and the [filteredAttributes] of the exemplar are one and the same
    object, as they are in the source. *)

From Stdlib Require Import ZArith Floats.
From stdpp Require Import gmap strings list fin_maps sorting.

Open Scope Z_scope.

(** Object identity. *)
Abbreviation loc := nat.

(** How a call completes: normally, or by a thrown error. *)
Inductive JsError := TypeError | RangeError.

Inductive Completion (A : Type) :=
  | Normal (a : A)
  | Throw (e : JsError).
Arguments Normal {A} a.
Arguments Throw {A} e.

(** ** Attributes *)

(** [AttributeValue | undefined] of the metrics API. Arrays are objects:
    only their identity takes part in [===]. *)
Inductive AttributeValue :=
  | AUndefined
  | AString (s : string)
  | ANumber (x : float)
  | ABoolean (b : bool)
  | AArray (ref : loc).

(** The operator [===] on attribute values. Numbers compare as IEEE 754
    doubles: [NaN] differs from itself and [+0] equals [-0]. *)
Definition strict_equals (a b : AttributeValue) : bool :=
  match a, b with
  | AUndefined, AUndefined => true
  | AString s, AString t => bool_decide (s = t)
  | ANumber x, ANumber y => PrimFloat.eqb x y
  | ABoolean p, ABoolean q => Bool.eqb p q
  | AArray r, AArray s => bool_decide (r = s)
  | _, _ => false
  end.

(** The store of attributes objects. *)
Abbreviation Attributes := (gmap string AttributeValue).
Abbreviation Heap := (gmap nat (gmap string AttributeValue)).

(** The object behind a reference. *)
Definition obj (h : Heap) (l : loc) : Attributes := default ∅ (h !! l).

(** [o[key]]: a missing property reads as [undefined]. *)
Definition get (h : Heap) (l : loc) (key : string) : AttributeValue :=
  default AUndefined (obj h l !! key).

(** [delete o[key]]. *)
Definition delete_property (h : Heap) (l : loc) (key : string) : Heap :=
  alter (delete key) l h.

(** [Object.keys(o)]. The store keeps no insertion order; [forEach_key]
    below is shown not to depend on the order. *)
Definition Object_keys (h : Heap) (l : loc) : list string :=
  (map_to_list (obj h l)).*1.

(** ** Trace context *)

Definition HrTime : Type := float * float.

Record SpanContext := {
  sc_traceId : string;
  sc_spanId : string;
  sc_traceFlags : Z
}.

(** The API's [Context], reduced to the one entry this code reads: the span
    context of the active span, when there is one. *)
Record Context := { activeSpan : option SpanContext }.

(** [trace.getSpanContext(ctx)]. *)
Definition trace_getSpanContext (ctx : Context) : option SpanContext :=
  activeSpan ctx.

(** ** Exemplar *)

Record Exemplar := {
  filteredAttributes : loc;
  value : float;
  timestamp : HrTime;
  spanId : option string;
  traceId : option string
}.

(** ** class StorageItem *)

Module StorageItem.

Record t := {
  value : float;
  attributes : option loc;      (* [null] or a reference *)
  timestamp : HrTime;
  spanId : option string;
  traceId : option string
}.

(** The field initialisers. *)
Definition new : t :=
  {| value := 0; attributes := None; timestamp := (0%float, 0%float);
     spanId := None; traceId := None |}.

Definition offerMeasurement (this : t) (value : float) (timestamp : HrTime)
    (attributes : loc) (ctx : Context) : t :=
  let spanContext := trace_getSpanContext ctx in
  {| value := value;
     attributes := Some attributes;
     timestamp := timestamp;
     spanId := sc_spanId <$> spanContext;
     traceId := sc_traceId <$> spanContext |}.

(** The body of the [forEach] callback of [getAndReset]. *)
Definition filter_key (pointAttributes currentAttributes : loc)
    (h : Heap) (key : string) : Heap :=
  if strict_equals (get h pointAttributes key) (get h currentAttributes key)
  then delete_property h currentAttributes key
  else h.

Definition forEach_key (pointAttributes currentAttributes : loc)
    (keys : list string) (h : Heap) : Heap :=
  foldl (filter_key pointAttributes currentAttributes) h keys.

Definition getAndReset (this : t) (h : Heap) (pointAttributes : loc)
    : t * Heap * option Exemplar :=
  match attributes this with
  | Some currentAttributes =>
      let h' := forEach_key pointAttributes currentAttributes
                  (Object_keys h pointAttributes) h in
      let retVal :=
        Build_Exemplar currentAttributes (value this) (timestamp this)
                       (spanId this) (traceId this) in
      (new, h', Some retVal)
  | None => (this, h, None)
  end.

End StorageItem.

(** ** abstract class FixedSizeExemplarReservoirBase *)

(** The abstract method [reservoirIndexFor] and the overridable hook
    [reset], over the fields a subclass adds to the object. The index
    method may read its arguments and update the subclass fields. Indices
    are the integral numbers; [-1] is the one the source tests for. *)
Class Strategy (Fields : Type) := {
  reservoirIndexFor :
    Fields → Heap → float → HrTime → loc → Context → Z * Fields;
  reset : Fields → Fields
}.

(** [a[index]] on an array: [undefined] outside the array. *)
Definition array_get {A} (a : list A) (index : Z) : option A :=
  if bool_decide (0 ≤ index) then a !! Z.to_nat index else None.

(** The largest length [new Array(n)] accepts. *)
Definition MAX_ARRAY_LENGTH : Z := 4294967295.

Module FixedSizeExemplarReservoirBase.

Record t (Fields : Type) := {
  _reservoirStorage : list StorageItem.t;
  _size : Z;
  sub : Fields                 (* the fields of the subclass *)
}.
Arguments _reservoirStorage {Fields} _.
Arguments _size {Fields} _.
Arguments sub {Fields} _.

Section Methods.
Context {Fields : Type} `{!Strategy Fields}.

(** [new Array(size)] throws a [RangeError] unless [size] is an array
    length; the loop then fills every index below [size]. *)
Definition constructor (size : Z) (fields : Fields) : Completion (t Fields) :=
  if bool_decide (0 ≤ size ≤ MAX_ARRAY_LENGTH) then
    Normal {| _size := size;
              _reservoirStorage :=
                replicate (Z.to_nat size) StorageItem.new;
              sub := fields |}
  else Throw RangeError.

Definition maxSize (this : t Fields) : Z := _size this.

(** Calling a method of [undefined] throws a [TypeError]; nothing has
    been written to a slot by then. *)
Definition offerMeasurement (this : t Fields) (h : Heap) (value : float)
    (timestamp : HrTime) (attributes : loc) (ctx : Context)
    : t Fields * Completion unit :=
  let '(index, fields) :=
    reservoirIndexFor (sub this) h value timestamp attributes ctx in
  if bool_decide (index ≠ -1) then
    match array_get (_reservoirStorage this) index with
    | Some item =>
        ({| _size := _size this;
            _reservoirStorage :=
              <[Z.to_nat index :=
                  StorageItem.offerMeasurement item value timestamp
                    attributes ctx]> (_reservoirStorage this);
            sub := fields |},
         Normal ())
    | None =>
        ({| _size := _size this;
            _reservoirStorage := _reservoirStorage this;
            sub := fields |},
         Throw TypeError)
    end
  else
    ({| _size := _size this;
        _reservoirStorage := _reservoirStorage this;
        sub := fields |},
     Normal ()).

(** The [forEach] of [collectAndReset]: every item is read and reset in
    array order, and the exemplars are pushed in that order. *)
Fixpoint forEach_item (items : list StorageItem.t) (h : Heap)
    (pointAttributes : loc)
    : list StorageItem.t * Heap * list Exemplar :=
  match items with
  | [] => ([], h, [])
  | storageItem :: rest =>
      let '(storageItem', h1, res) :=
        StorageItem.getAndReset storageItem h pointAttributes in
      let '(rest', h2, retVal) := forEach_item rest h1 pointAttributes in
      (storageItem' :: rest', h2,
       match res with Some e => e :: retVal | None => retVal end)
  end.

Definition collectAndReset (this : t Fields) (h : Heap) (pointAttributes : loc)
    : t Fields * Heap * list Exemplar :=
  let '(items, h', retVal) :=
    forEach_item (_reservoirStorage this) h pointAttributes in
  ({| _size := _size this;
      _reservoirStorage := items;
      sub := reset (sub this) |},
   h', retVal).

End Methods.

End FixedSizeExemplarReservoirBase.

(** ** grpc-js/clientUtils.ts *)

(** JavaScript values as the [unknown] arguments of a client call. *)
Inductive JsValue :=
  | JUndefined
  | JNull
  | JBoolean (b : bool)
  | JNumber (x : float)
  | JString (s : string)
  | JFunction (ref : loc)
  | JObject (ref : loc).

(** The store of objects: the properties a read [o[key]] finds. *)
Abbreviation Objects := (gmap nat (gmap string JsValue)).

Definition typeof (v : JsValue) : string :=
  match v with
  | JUndefined => "undefined"
  | JNull => "object"
  | JBoolean _ => "boolean"
  | JNumber _ => "number"
  | JString _ => "string"
  | JFunction _ => "function"
  | JObject _ => "object"
  end.

(** Truthiness, as [&&] tests it. *)
Definition ToBoolean (v : JsValue) : bool :=
  match v with
  | JUndefined | JNull => false
  | JBoolean b => b
  | JNumber x => negb (PrimFloat.eqb x 0 || PrimFloat.is_nan x)
  | JString s => negb (bool_decide (s = ""%string))
  | JFunction _ | JObject _ => true
  end.

(** [v[key]] for a value that passed the [typeof v === 'object'] test. *)
Definition property (h : Objects) (v : JsValue) (key : string) : JsValue :=
  match v with
  | JObject l => default JUndefined (default ∅ (h !! l) !! key)
  | _ => JUndefined
  end.

(** [Array.prototype.findIndex]: the first index whose element passes, or
    [-1]. *)
Fixpoint findIndex_from {A} (p : A → bool) (a : list A) (i : Z) : Z :=
  match a with
  | [] => -1
  | x :: rest => if p x then i else findIndex_from p rest (i + 1)
  end.

Definition findIndex {A} (p : A → bool) (a : list A) : Z :=
  findIndex_from p a 0.

(** [a.splice(start, 0, item)]: [start] is clamped to the array. *)
Definition splice_insert {A} (a : list A) (start : Z) (item : A) : list A :=
  let len := Z.of_nat (length a) in
  let actualStart :=
    Z.to_nat (if bool_decide (start < 0) then Z.max (len + start) 0
              else Z.min start len) in
  take actualStart a ++ item :: drop actualStart a.

Module ClientUtils.

(** The two flags of a [GrpcClientFunc] the code reads. *)
Record GrpcClientFunc := {
  requestStream : bool;
  responseStream : bool
}.

(** The injected [grpcClient] module: the own and inherited properties
    of what [new grpcClient.Metadata()] constructs. *)
Record GrpcJs := { Metadata_properties : gmap string JsValue }.

(** [new grpcClient.Metadata()]: an object of a new identity. *)
Definition new_Metadata (grpcClient : GrpcJs) (h : Objects)
    : JsValue * Objects :=
  let l := fresh (dom h) in
  (JObject l, <[l := Metadata_properties grpcClient]> h).

(** The predicate handed to [findIndex] in [getMetadata]. *)
Definition isMetadata (h : Objects) (arg : JsValue) : bool :=
  ToBoolean arg
  && bool_decide (typeof arg = "object"%string)
  && ToBoolean (property h arg "internalRepr")
  && bool_decide (typeof (property h arg "getMap") = "function"%string).

Definition getMetadata (grpcClient : GrpcJs) (original : GrpcClientFunc)
    (h : Objects) (args : list JsValue)
    : list JsValue * Objects * JsValue :=
  let metadataIndex := findIndex (isMetadata h) args in
  if bool_decide (metadataIndex = -1) then
    let '(metadata, h') := new_Metadata grpcClient h in
    let metadataIndex := if negb (requestStream original) then 1 else 0 in
    (splice_insert args metadataIndex metadata, h', metadata)
  else
    (args, h, default JUndefined (array_get args metadataIndex)).

(** *** The response-stream branch of [makeGrpcClientRemoteCall] *)

Inductive SpanStatusCode := UNSET | OK | ERROR.

Record SpanStatus := {
  code : SpanStatusCode;
  message : option string
}.

Inductive SpanAttributeValue :=
  | SString (s : string)
  | SNumber (n : Z).

(** The span is observed through the calls it receives, in order. *)
Inductive SpanCall :=
  | setStatus (status : SpanStatus)
  | setAttribute (key : string) (v : SpanAttributeValue)
  | setAttributes (attributes : list (string * SpanAttributeValue))
  | span_end.

Record ServiceError := {
  err_code : Z;
  err_name : string;
  err_message : string
}.

Record StatusObject := { status_code : Z }.

(** What [../utils], [../enums/AttributeNames] and the semantic
    conventions supply. *)
Class Utils := {
  _grpcStatusCodeToSpanStatus : Z → SpanStatus;
  _grpcStatusCodeToOpenTelemetryStatusCode : Z → SpanStatusCode;
  GRPC_ERROR_NAME : string;
  GRPC_ERROR_MESSAGE : string;
  RPC_GRPC_STATUS_CODE : string
}.

(** The state the two listeners share: the local [spanEnded] of the
    closure, the truthiness of [call[CALL_SPAN_ENDED]], and the span. *)
Record StreamCall := {
  spanEnded : bool;
  CALL_SPAN_ENDED : bool;
  span : list SpanCall
}.

Inductive Event :=
  | error (err : ServiceError)
  | status (s : StatusObject).

Section Listeners.
Context `{!Utils}.

(** The state when the listeners are registered on the call that
    [original.apply] returned. *)
Definition registered (calls : list SpanCall) : StreamCall :=
  {| spanEnded := false; CALL_SPAN_ENDED := false; span := calls |}.

Definition span_call (c : StreamCall) (m : SpanCall) : StreamCall :=
  {| spanEnded := spanEnded c;
     CALL_SPAN_ENDED := CALL_SPAN_ENDED c;
     span := span c ++ [m] |}.

Definition endSpan (c : StreamCall) : StreamCall :=
  if negb (spanEnded c) then
    {| spanEnded := true;
       CALL_SPAN_ENDED := CALL_SPAN_ENDED c;
       span := span c ++ [span_end] |}
  else c.

Definition set_CALL_SPAN_ENDED (c : StreamCall) : StreamCall :=
  {| spanEnded := spanEnded c;
     CALL_SPAN_ENDED := true;
     span := span c |}.

Definition on_error (c : StreamCall) (err : ServiceError) : StreamCall :=
  if CALL_SPAN_ENDED c then c
  else
    let c := set_CALL_SPAN_ENDED c in
    let c := span_call c (setStatus
      {| code := _grpcStatusCodeToOpenTelemetryStatusCode (err_code err);
         message := Some (err_message err) |}) in
    let c := span_call c (setAttributes
      [ (GRPC_ERROR_NAME, SString (err_name err));
        (GRPC_ERROR_MESSAGE, SString (err_message err));
        (RPC_GRPC_STATUS_CODE, SNumber (err_code err)) ]) in
    endSpan c.

Definition on_status (c : StreamCall) (s : StatusObject) : StreamCall :=
  if CALL_SPAN_ENDED c then c
  else
    let c := set_CALL_SPAN_ENDED c in
    let c := span_call c
      (setStatus (_grpcStatusCodeToSpanStatus (status_code s))) in
    let c := span_call c
      (setAttribute RPC_GRPC_STATUS_CODE (SNumber (status_code s))) in
    endSpan c.

(** [call.emit]: the listener of the event runs to completion. *)
Definition emit (c : StreamCall) (e : Event) : StreamCall :=
  match e with
  | error err => on_error c err
  | status s => on_status c s
  end.

Definition emit_all (c : StreamCall) (events : list Event) : StreamCall :=
  foldl emit c events.

End Listeners.

(** How often [span.end()] was called. *)
Fixpoint ends (calls : list SpanCall) : nat :=
  match calls with
  | [] => 0
  | span_end :: rest => S (ends rest)
  | _ :: rest => ends rest
  end.

(** *** [getMethodsToWrap] *)

(** A value of the [methods] object: its optional [originalName]. *)
Record MethodDefinition := { originalName : option string }.

Section MethodsToWrap.
Context {IgnoreMatchers : Type}.

(** [_methodIsIgnored] of [../utils]. *)
Variable _methodIsIgnored : string → IgnoreMatchers → bool.

(** The test [originalName && client.prototype.hasOwnProperty(originalName)
    && name !== originalName]; an absent or empty name is falsy. The
    prototype is given by the names of its own properties. *)
Definition adds_original (prototype : gset string) (name : string)
    (definition : MethodDefinition) : option string :=
  match originalName definition with
  | Some original =>
      if negb (bool_decide (original = ""%string))
         && bool_decide (original ∈ prototype)
         && bool_decide (name ≠ original)
      then Some original else None
  | None => None
  end.

(** The callback of the [forEach]. *)
Definition wrap_entry (ignoreGrpcMethods : IgnoreMatchers)
    (prototype : gset string) (methodList : list string)
    (entry : string * MethodDefinition) : list string :=
  let '(name, definition) := entry in
  if negb (_methodIsIgnored name ignoreGrpcMethods) then
    let methodList := methodList ++ [name] in
    match adds_original prototype name definition with
    | Some original => methodList ++ [original]
    | None => methodList
    end
  else methodList.

(** [methods] is given by [Object.entries(methods)]. *)
Definition getMethodsToWrap (ignoreGrpcMethods : IgnoreMatchers)
    (prototype : gset string) (methods : list (string * MethodDefinition))
    : list string :=
  foldl (wrap_entry ignoreGrpcMethods prototype) [] methods.

End MethodsToWrap.

(** *** The callback branch of [makeGrpcClientRemoteCall] *)

(** [GRPC_STATUS_CODE_OK] of [../status-code]. *)
Class StatusCode := { GRPC_STATUS_CODE_OK : Z }.

(** What a run of the patched callback does, in order: calls on the span
    and the call of the callback it wraps. *)
Inductive Action :=
  | on_span (m : SpanCall)
  | callback (err : option ServiceError) (res : JsValue).

Section PatchedCallback.
Context `{!Utils} `{!StatusCode}.

(** [wrappedFn] of [patchedCallback]; [err.code] is falsy when it is 0. *)
Definition wrappedFn (err : option ServiceError) (res : JsValue)
    : list Action :=
  match err with
  | Some e =>
      (if bool_decide (err_code e ≠ 0) then
         [on_span (setStatus (_grpcStatusCodeToSpanStatus (err_code e)));
          on_span (setAttribute RPC_GRPC_STATUS_CODE (SNumber (err_code e)))]
       else [])
      ++ [on_span (setAttributes
            [(GRPC_ERROR_NAME, SString (err_name e));
             (GRPC_ERROR_MESSAGE, SString (err_message e))])]
  | None =>
      [on_span (setStatus {| code := UNSET; message := None |});
       on_span (setAttribute RPC_GRPC_STATUS_CODE
                  (SNumber GRPC_STATUS_CODE_OK))]
  end
  ++ [on_span span_end; callback err res].

End PatchedCallback.

(** The first block of the function [makeGrpcClientRemoteCall] returns: on
    a call without a response stream the first argument that is a function
    is replaced by the patched callback, a function of a new identity. The
    result also tells which function wraps which callback. *)
Definition patch_callback (original : GrpcClientFunc) (h : Objects)
    (args : list JsValue) : list JsValue * Objects * option (loc * JsValue) :=
  if negb (responseStream original) then
    let callbackFuncIndex :=
      findIndex (λ arg, bool_decide (typeof arg = "function"%string)) args in
    if bool_decide (callbackFuncIndex ≠ -1) then
      let wrapped := fresh (dom h) in
      (<[Z.to_nat callbackFuncIndex := JFunction wrapped]> args,
       <[wrapped := ∅]> h,
       Some (wrapped, default JUndefined (array_get args callbackFuncIndex)))
    else (args, h, None)
  else (args, h, None).

(** *** All the listeners of a call *)

Section CallListeners.
Context `{!Utils} {ResponseMetadata : Type}.

(** [metadataCapture.client.captureResponseMetadata(span, metadata)], by
    the calls it makes on the span. *)
Variable captureResponseMetadata : ResponseMetadata → list SpanCall.

Inductive CallEvent :=
  | metadata (responseMetadata : ResponseMetadata)
  | completion (e : Event).

Definition on_metadata (c : StreamCall) (responseMetadata : ResponseMetadata)
    : StreamCall :=
  {| spanEnded := spanEnded c;
     CALL_SPAN_ENDED := CALL_SPAN_ENDED c;
     span := span c ++ captureResponseMetadata responseMetadata |}.

(** The listeners of a call with a response stream: ['metadata'],
    ['error'] and ['status']. *)
Definition emit_call (c : StreamCall) (e : CallEvent) : StreamCall :=
  match e with
  | metadata responseMetadata => on_metadata c responseMetadata
  | completion e => emit c e
  end.

Definition emit_call_all (c : StreamCall) (events : list CallEvent)
    : StreamCall :=
  foldl emit_call c events.

End CallListeners.

End ClientUtils.

(** * Vocabulary of the properties *)

(** Whether the point attributes make the entry [key ↦ v] redundant: they
    have [key], with a value [===] to [v]. *)
Definition implied (point : Attributes) (key : string) (v : AttributeValue)
    : bool :=
  match point !! key with
  | Some pv => strict_equals pv v
  | None => false
  end.

(** The attributes left once the entries the point attributes imply are
    deleted. *)
Definition filtered (point attrs : Attributes) : Attributes :=
  filter (λ kv, implied point kv.1 kv.2 = false) attrs.

(** The attributes objects the occupied slots hold, in array order. *)
Definition attribute_refs (items : list StorageItem.t) : list loc :=
  omap StorageItem.attributes items.

(** A slot is occupied when its attributes are not [null]. *)
Definition occupied (item : StorageItem.t) : bool :=
  match StorageItem.attributes item with
  | Some _ => true
  | None => false
  end.

(** The exemplar an occupied slot holds. *)
Definition pending (item : StorageItem.t) : option Exemplar :=
  match StorageItem.attributes item with
  | Some a =>
      Some (Build_Exemplar a (StorageItem.value item)
              (StorageItem.timestamp item) (StorageItem.spanId item)
              (StorageItem.traceId item))
  | None => None
  end.

(** The indices of the occupied slots, in array order. *)
Fixpoint occupied_slots (items : list StorageItem.t) : list nat :=
  match items with
  | [] => []
  | item :: rest =>
      (if occupied item then [0%nat] else []) ++ (S <$> occupied_slots rest)
  end.

(** The exemplar [e] is the one slot [k] of [items] holds. *)
Definition exemplar_of_slot (items : list StorageItem.t) (k : nat)
    (e : Exemplar) : Prop :=
  ∃ item, items !! k = Some item ∧ pending item = Some e.

(** The slot left behind by [getAndReset]. *)
Definition drained (item : StorageItem.t) : StorageItem.t :=
  if occupied item then StorageItem.new else item.

(** A slot that is not occupied is as the constructor made it. *)
Definition pristine (item : StorageItem.t) : Prop :=
  occupied item = false → item = StorageItem.new.

(** The reservoirs of capacity [N] a program can hold: constructed with
    size [N], then offered to and collected from in any order, over any
    store. *)
Inductive reachable {Fields : Type} `{!Strategy Fields} (N : Z)
    : FixedSizeExemplarReservoirBase.t Fields → Prop :=
  | reachable_new fields r :
      FixedSizeExemplarReservoirBase.constructor N fields = Normal r →
      reachable N r
  | reachable_offer r h v ts a ctx :
      reachable N r →
      reachable N
        (FixedSizeExemplarReservoirBase.offerMeasurement r h v ts a ctx).1
  | reachable_collect r h p :
      reachable N r →
      reachable N (FixedSizeExemplarReservoirBase.collectAndReset r h p).1.1.

(** One call of [offerMeasurement]: its arguments, and the store at the
    time of the call. *)
Record Measurement := {
  m_store : Heap;
  m_value : float;
  m_timestamp : HrTime;
  m_attributes : loc;
  m_ctx : Context
}.

Section Offers.
Context {Fields : Type} `{!Strategy Fields}.

Definition offer (r : FixedSizeExemplarReservoirBase.t Fields)
    (m : Measurement)
    : FixedSizeExemplarReservoirBase.t Fields * Completion unit :=
  FixedSizeExemplarReservoirBase.offerMeasurement r
    (m_store m) (m_value m) (m_timestamp m) (m_attributes m) (m_ctx m).

(** The index the strategy answers for the measurement. *)
Definition index_for (r : FixedSizeExemplarReservoirBase.t Fields)
    (m : Measurement) : Z :=
  (reservoirIndexFor (FixedSizeExemplarReservoirBase.sub r)
     (m_store m) (m_value m) (m_timestamp m) (m_attributes m) (m_ctx m)).1.

(** A sequence of offers, whether they return or throw. *)
Definition offer_all (r : FixedSizeExemplarReservoirBase.t Fields)
    (ms : list Measurement) : FixedSizeExemplarReservoirBase.t Fields :=
  foldl (λ r m, (offer r m).1) r ms.

(** None of the offers of the sequence is sent to slot [i]. *)
Fixpoint none_to (i : nat) (r : FixedSizeExemplarReservoirBase.t Fields)
    (ms : list Measurement) : Prop :=
  match ms with
  | [] => True
  | m :: ms => index_for r m ≠ Z.of_nat i ∧ none_to i (offer r m).1 ms
  end.

End Offers.

(** What an offer stores in its slot, and the exemplar read from it. *)
Definition stored (m : Measurement) : StorageItem.t :=
  StorageItem.Build_t (m_value m) (Some (m_attributes m)) (m_timestamp m)
    (sc_spanId <$> activeSpan (m_ctx m)) (sc_traceId <$> activeSpan (m_ctx m)).

Definition exemplar_of (m : Measurement) : Exemplar :=
  Build_Exemplar (m_attributes m) (m_value m) (m_timestamp m)
    (sc_spanId <$> activeSpan (m_ctx m)) (sc_traceId <$> activeSpan (m_ctx m)).

(** A subclass for examples: its field lists the indices that the next
    calls of [reservoirIndexFor] return, [-1] once the list is used up. *)
#[export] Instance scripted : Strategy (list Z) := {
  reservoirIndexFor script _ _ _ _ _ :=
    match script with
    | index :: rest => (index, rest)
    | [] => (-1, [])
    end;
  reset script := script
}.

(** The index at which [getMetadata] inserts a new metadata object. *)
Definition insertion_index (original : ClientUtils.GrpcClientFunc)
    (args : list JsValue) : nat :=
  if ClientUtils.requestStream original then 0%nat
  else (1 `min` length args)%nat.

(** The names one entry of [methods] adds to the list. *)
Definition names_of_entry {IgnoreMatchers : Type}
    (_methodIsIgnored : string → IgnoreMatchers → bool)
    (ignoreGrpcMethods : IgnoreMatchers) (prototype : gset string)
    (entry : string * ClientUtils.MethodDefinition) : list string :=
  ClientUtils.wrap_entry _methodIsIgnored ignoreGrpcMethods prototype []
    entry.

(** The calls a run makes on the span, and the calls of the callback. *)
Definition span_calls (trace : list ClientUtils.Action)
    : list ClientUtils.SpanCall :=
  omap (λ a, match a with
             | ClientUtils.on_span m => Some m
             | ClientUtils.callback _ _ => None
             end) trace.

Definition callbacks (trace : list ClientUtils.Action)
    : list (option ClientUtils.ServiceError * JsValue) :=
  omap (λ a, match a with
             | ClientUtils.on_span _ => None
             | ClientUtils.callback err res => Some (err, res)
             end) trace.

(** Whether an ['error'] or ['status'] event is among the events. *)
Definition has_completion {ResponseMetadata : Type}
    (events : list (@ClientUtils.CallEvent ResponseMetadata)) : bool :=
  existsb (λ e, match e with
                | ClientUtils.completion _ => true
                | ClientUtils.metadata _ => false
                end) events.

(** An object [new grpcClient.Metadata()] may construct: one that
    [getMetadata] recognises. *)
Definition Metadata_shaped (properties : gmap string JsValue) : Prop :=
  ToBoolean (default JUndefined (properties !! "internalRepr"%string)) = true
  ∧ typeof (default JUndefined (properties !! "getMap"%string))
    = "function"%string.

(** * Example data *)

Definition no_span : Context := {| activeSpan := None |}.

Definition a_span : SpanContext :=
  {| sc_traceId := "d4cda95b652f4a1592b449d5929fda1b";
     sc_spanId := "6e0c63257de34c92";
     sc_traceFlags := 1 |}.

Definition in_span : Context := {| activeSpan := Some a_span |}.

Definition T1 : HrTime := (1%float, 0%float).
Definition T2 : HrTime := (2%float, 0%float).

(** Point attributes [{a:1, b:2}] at [1], measurement attributes
    [{a:1, b:2, c:3}] at [2]. *)
Definition point_and_measurement : Heap :=
  {[ 1%nat := {[ "a" := ANumber 1; "b" := ANumber 2 ]};
     2%nat := {[ "a" := ANumber 1; "b" := ANumber 2; "c" := ANumber 3 ]} ]}.

(** The store of the specification's scenario: point attributes [{a:1}] at
    [1], the attributes [{a:1}] and [{a:1, b:2}] of the two measurements at
    [2] and [3], and an empty attributes object at [4]. *)
Definition scenario_store : Heap :=
  {[ 1%nat := {[ "a" := ANumber 1 ]};
     2%nat := {[ "a" := ANumber 1 ]};
     3%nat := {[ "a" := ANumber 1; "b" := ANumber 2 ]};
     4%nat := ∅ ]}.

(** A reservoir as its constructor leaves it, for the scripted subclass. *)
Definition constructed (N : nat) (script : list Z)
    : FixedSizeExemplarReservoirBase.t (list Z) :=
  {| FixedSizeExemplarReservoirBase._reservoirStorage :=
       replicate N StorageItem.new;
     FixedSizeExemplarReservoirBase._size := Z.of_nat N;
     FixedSizeExemplarReservoirBase.sub := script |}.

(** The scenario: capacity 2, the first offer sent to slot 0 and the second
    to slot 1. *)
Definition scenario_offered : FixedSizeExemplarReservoirBase.t (list Z) :=
  (FixedSizeExemplarReservoirBase.offerMeasurement
     (FixedSizeExemplarReservoirBase.offerMeasurement
        (constructed 2 [0; 1]) scenario_store 5 T1 2%nat no_span).1
     scenario_store 7 T2 3%nat no_span).1.

(** Measurements of the scenario, and a third one under a span. *)
Definition first_measurement : Measurement :=
  {| m_store := scenario_store; m_value := 5; m_timestamp := T1;
     m_attributes := 2%nat; m_ctx := no_span |}.

Definition second_measurement : Measurement :=
  {| m_store := scenario_store; m_value := 7; m_timestamp := T2;
     m_attributes := 3%nat; m_ctx := no_span |}.

Definition traced_measurement : Measurement :=
  {| m_store := scenario_store; m_value := 9; m_timestamp := T2;
     m_attributes := 4%nat; m_ctx := in_span |}.

(** Arguments of a unary call: the request message and the callback. *)
Definition call_store : Objects :=
  {[ 0%nat := {[ "id" := JNumber 7 ]}; 1%nat := ∅ ]}.

Definition call_args : list JsValue := [JObject 0; JFunction 1].

Definition unary : ClientUtils.GrpcClientFunc :=
  {| ClientUtils.requestStream := false; ClientUtils.responseStream := false |}.

Definition a_grpcClient : ClientUtils.GrpcJs :=
  {| ClientUtils.Metadata_properties :=
       {[ "internalRepr" := JObject 9; "getMap" := JFunction 8 ]} |}.

(** The helpers of [../utils] and the attribute names, for examples. *)
Definition example_utils : ClientUtils.Utils :=
  {| ClientUtils._grpcStatusCodeToSpanStatus c :=
       {| ClientUtils.code :=
            if bool_decide (c = 0) then ClientUtils.UNSET
            else ClientUtils.ERROR;
          ClientUtils.message := None |};
     ClientUtils._grpcStatusCodeToOpenTelemetryStatusCode c :=
       if bool_decide (c = 0) then ClientUtils.UNSET else ClientUtils.ERROR;
     ClientUtils.GRPC_ERROR_NAME := "grpc.error_name";
     ClientUtils.GRPC_ERROR_MESSAGE := "grpc.error_message";
     ClientUtils.RPC_GRPC_STATUS_CODE := "rpc.grpc.status_code" |}.

Definition example_status_code : ClientUtils.StatusCode :=
  {| ClientUtils.GRPC_STATUS_CODE_OK := 0 |}.

(** A [methods] object with both casings, and an ignore list by name. *)
Definition example_methods : list (string * ClientUtils.MethodDefinition) :=
  [ ("unaryMethod", {| ClientUtils.originalName := Some "UnaryMethod" |});
    ("echo", {| ClientUtils.originalName := Some "echo" |});
    ("hidden", {| ClientUtils.originalName := Some "Hidden" |});
    ("plain", {| ClientUtils.originalName := None |}) ]%string.

Definition ignored_by_name (name : string) (ignore : list string) : bool :=
  bool_decide (name ∈ ignore).

Definition example_prototype : gset string :=
  {[ "unaryMethod"; "UnaryMethod"; "echo"; "hidden"; "Hidden"; "plain" ]}%string.

Definition an_error : ClientUtils.ServiceError :=
  {| ClientUtils.err_code := 14;
     ClientUtils.err_name := "Error";
     ClientUtils.err_message := "unavailable" |}.

(** A response-metadata capture that records one attribute. *)
Definition capture_one (responseMetadata : string)
    : list ClientUtils.SpanCall :=
  [ClientUtils.setAttribute "rpc.response.metadata"
     (ClientUtils.SString responseMetadata)].

(** * Properties *)

(** ** Reading and deleting properties *)

Lemma obj_delete_property_eq h l key :
  obj (delete_property h l key) l = delete key (obj h l).
Proof.
  unfold obj, delete_property. rewrite lookup_alter_eq.
  destruct (h !! l) as [o|]; simpl; [done|]. by rewrite delete_empty.
Qed.

Lemma obj_delete_property_ne h l l' key :
  l ≠ l' → obj (delete_property h l key) l' = obj h l'.
Proof.
  intros Hne. unfold obj, delete_property. by rewrite lookup_alter_ne.
Qed.

Lemma get_delete_property_other h l l' key key' :
  key ≠ key' → get (delete_property h l key) l' key' = get h l' key'.
Proof.
  intros Hne. unfold get. destruct (decide (l = l')) as [->|Hl].
  - by rewrite obj_delete_property_eq, lookup_delete_ne.
  - by rewrite obj_delete_property_ne.
Qed.

Lemma elem_of_Object_keys h l key :
  key ∈ Object_keys h l ↔ is_Some (obj h l !! key).
Proof.
  unfold Object_keys. rewrite list_elem_of_fmap. split.
  - intros [[k v] [-> Hin]]. apply elem_of_map_to_list in Hin. eauto.
  - intros [v Hv]. exists (key, v). split; [done|].
    by apply elem_of_map_to_list.
Qed.

Lemma NoDup_Object_keys h l : NoDup (Object_keys h l).
Proof. apply NoDup_fst_map_to_list. Qed.

(** ** StorageItem *)

Section StorageItemProperties.
Implicit Types (h : Heap) (p cur : loc) (key : string).

Lemma filter_key_other h p cur key l :
  l ≠ cur → StorageItem.filter_key p cur h key !! l = h !! l.
Proof.
  intros Hne. unfold StorageItem.filter_key.
  case_match; [|done]. unfold delete_property. by rewrite lookup_alter_ne.
Qed.

Lemma filter_key_dom h p cur key :
  dom (StorageItem.filter_key p cur h key) = dom h.
Proof.
  unfold StorageItem.filter_key. case_match; [|done].
  unfold delete_property. apply set_eq. intros l.
  rewrite !elem_of_dom. destruct (decide (cur = l)) as [->|Hne].
  - rewrite lookup_alter_eq. by rewrite fmap_is_Some.
  - by rewrite lookup_alter_ne.
Qed.

Lemma filter_key_get_other h p cur key l key' :
  key ≠ key' → get (StorageItem.filter_key p cur h key) l key' = get h l key'.
Proof.
  intros Hne. unfold StorageItem.filter_key. case_match; [|done].
  by apply get_delete_property_other.
Qed.

Lemma filter_key_lookup h p cur key key' :
  obj (StorageItem.filter_key p cur h key) cur !! key' =
  if bool_decide (key' = key)
     && strict_equals (get h p key) (get h cur key)
  then None else obj h cur !! key'.
Proof.
  unfold StorageItem.filter_key.
  destruct (strict_equals _ _) eqn:Heq;
    case_bool_decide as Hk; simpl; try done.
  - subst. by rewrite obj_delete_property_eq, lookup_delete_eq.
  - by rewrite obj_delete_property_eq, lookup_delete_ne.
Qed.

(** The loop over a duplicate-free list of keys deletes, from the current
    attributes and from nothing else, the listed keys whose values are
    [===] in the two objects as they were before the loop. The two
    objects may be one. *)
Lemma forEach_key_spec keys : ∀ h p cur,
  NoDup keys →
  let h' := StorageItem.forEach_key p cur keys h in
  dom h' = dom h
  ∧ (∀ l, l ≠ cur → h' !! l = h !! l)
  ∧ (∀ key, obj h' cur !! key =
       if bool_decide (key ∈ keys)
          && strict_equals (get h p key) (get h cur key)
       then None else obj h cur !! key).
Proof.
  induction keys as [|k keys IH]; intros h p cur Hnd; simpl.
  - repeat split; done.
  - apply NoDup_cons in Hnd as [Hk Hnd].
    destruct (IH (StorageItem.filter_key p cur h k) p cur Hnd)
      as (Hdom & Hother & Hcur).
    unfold StorageItem.forEach_key in *. simpl.
    split; [by rewrite Hdom, filter_key_dom|].
    split.
    { intros l Hl. rewrite Hother by done. by apply filter_key_other. }
    intros key. rewrite Hcur, filter_key_lookup.
    destruct (decide (key = k)) as [->|Hne].
    + rewrite (bool_decide_eq_false_2 (k ∈ keys)) by done.
      rewrite (bool_decide_eq_true_2 (k ∈ k :: keys)) by left.
      rewrite (bool_decide_eq_true_2 (k = k)) by done. done.
    + rewrite (bool_decide_eq_false_2 (key = k)) by done. simpl.
      rewrite !filter_key_get_other by done.
      rewrite (bool_decide_ext (key ∈ k :: keys) (key ∈ keys)); [done|].
      rewrite elem_of_cons. split; [by intros [?|?]|by right].
Qed.

(** The outcome of [getAndReset]'s loop in closed form. *)
Lemma forEach_key_filter h p cur :
  obj (StorageItem.forEach_key p cur (Object_keys h p) h) cur =
  filter (λ kv, implied (obj h p) kv.1 kv.2 = false) (obj h cur).
Proof.
  destruct (forEach_key_spec (Object_keys h p) h p cur
              (NoDup_Object_keys h p)) as (_ & _ & Hcur).
  apply map_eq. intros key. rewrite Hcur. clear Hcur.
  rewrite map_lookup_filter. unfold implied, get.
  destruct (obj h cur !! key) as [v|] eqn:Hv; simpl.
  - case_bool_decide as Hin; simpl.
    + apply elem_of_Object_keys in Hin as [pv Hpv]. rewrite Hpv. simpl.
      destruct (strict_equals pv v) eqn:Heq.
      * rewrite option_guard_False; [done|]. simpl. done.
      * rewrite option_guard_True; [done|]. simpl. done.
    + rewrite option_guard_True; [done|]. simpl.
      destruct (obj h p !! key) as [pv|] eqn:Hpv; [|done].
      exfalso. apply Hin, elem_of_Object_keys. eauto.
  - by destruct (_ && _).
Qed.

(** The order in which [Object.keys] lists the keys is immaterial. *)
Lemma forEach_key_order h p cur keys :
  keys ≡ₚ Object_keys h p →
  StorageItem.forEach_key p cur keys h =
  StorageItem.forEach_key p cur (Object_keys h p) h.
Proof.
  intros Hperm.
  assert (NoDup keys) as Hnd by (rewrite Hperm; apply NoDup_Object_keys).
  destruct (forEach_key_spec keys h p cur Hnd) as (Hd1 & Ho1 & Hc1).
  destruct (forEach_key_spec _ h p cur (NoDup_Object_keys h p))
    as (Hd2 & Ho2 & Hc2).
  apply map_eq. intros l. destruct (decide (l = cur)) as [->|Hne].
  - assert (obj (StorageItem.forEach_key p cur keys h) cur =
            obj (StorageItem.forEach_key p cur (Object_keys h p) h) cur)
      as Hobj.
    { apply map_eq. intros key. rewrite Hc1, Hc2.
      by rewrite (bool_decide_ext (key ∈ keys) (key ∈ Object_keys h p))
        by (by rewrite Hperm). }
    unfold obj in Hobj.
    destruct (StorageItem.forEach_key p cur keys h !! cur) as [o1|] eqn:E1;
      destruct (StorageItem.forEach_key p cur (Object_keys h p) h !! cur)
        as [o2|] eqn:E2; simpl in Hobj; try congruence.
    + apply mk_is_Some, elem_of_dom in E1. rewrite Hd1, <- Hd2 in E1.
      apply elem_of_dom in E1 as [? E1]. congruence.
    + apply mk_is_Some, elem_of_dom in E2. rewrite Hd2, <- Hd1 in E2.
      apply elem_of_dom in E2 as [? E2]. congruence.
  - by rewrite Ho1, Ho2.
Qed.

End StorageItemProperties.

(** An occupied slot reads as its pending exemplar and is reset to the
    initial item; an empty slot reads as nothing and stays as it is. *)
Lemma getAndReset_pending (this : StorageItem.t) (h : Heap) (p : loc) :
  (StorageItem.getAndReset this h p).2 = pending this.
Proof. unfold StorageItem.getAndReset, pending. by case_match. Qed.

Lemma getAndReset_empty (this : StorageItem.t) (h : Heap) (p : loc) :
  StorageItem.attributes this = None →
  StorageItem.getAndReset this h p = (this, h, None).
Proof. intros H. unfold StorageItem.getAndReset. by rewrite H. Qed.

Lemma getAndReset_attributes (this : StorageItem.t) (h : Heap) (p : loc) :
  StorageItem.attributes (StorageItem.getAndReset this h p).1.1 = None.
Proof.
  unfold StorageItem.getAndReset.
  destruct (StorageItem.attributes this) eqn:E; simpl; done.
Qed.

(** C2. For every occupied slot, [getAndReset(pointAttributes)] returns an
    exemplar whose [filteredAttributes] is the slot's attributes object,
    now holding the stored attributes minus exactly the keys whose value is
    [===] to the value under the same key of [pointAttributes]; with point
    attributes [{a:1, b:2}] and stored attributes [{a:1, b:2, c:3}] what
    remains is [{c:3}]. *)
Theorem getAndReset_filteredAttributes
    (this : StorageItem.t) (h : Heap) (pointAttributes cur : loc) :
  StorageItem.attributes this = Some cur →
  ∃ h' e,
    StorageItem.getAndReset this h pointAttributes
      = (StorageItem.new, h', Some e)
    ∧ filteredAttributes e = cur
    ∧ obj h' (filteredAttributes e) =
        filter (λ kv, implied (obj h pointAttributes) kv.1 kv.2 = false)
          (obj h cur)
    ∧ (∀ key v,
         obj h' (filteredAttributes e) !! key = Some v ↔
         obj h cur !! key = Some v
         ∧ ¬ ∃ pv, obj h pointAttributes !! key = Some pv
                   ∧ strict_equals pv v = true)
    ∧ (obj h pointAttributes = {[ "a" := ANumber 1; "b" := ANumber 2 ]} →
       obj h cur =
         {[ "a" := ANumber 1; "b" := ANumber 2; "c" := ANumber 3 ]} →
       obj h' (filteredAttributes e) = {[ "c" := ANumber 3 ]}).
Proof.
  intros Hcur. unfold StorageItem.getAndReset. rewrite Hcur.
  eexists _, _. split; [reflexivity|]. simpl. split; [done|].
  rewrite forEach_key_filter. split; [done|]. split.
  - intros key v. rewrite map_lookup_filter_Some. simpl. unfold implied.
    split; intros [Hv Hi]; (split; [done|]).
    + intros (pv & Hpv & Heq). rewrite Hpv in Hi. congruence.
    + destruct (obj h pointAttributes !! key) as [pv|]; [|done].
      destruct (strict_equals pv v) eqn:Heq; [|done].
      exfalso. apply Hi. eauto.
  - intros -> ->. by vm_compute.
Qed.

(** An instance of C2: the point attributes at [1], the slot's at [2]. *)
Lemma getAndReset_filteredAttributes_witness :
  ∃ h' e,
    StorageItem.getAndReset
      (StorageItem.offerMeasurement StorageItem.new 7 (1%float, 5%float)
         2%nat {| activeSpan := None |})
      point_and_measurement 1%nat
      = (StorageItem.new, h', Some e)
    ∧ filteredAttributes e = 2%nat
    ∧ obj h' (filteredAttributes e) =
        filter (λ kv, implied (obj point_and_measurement 1%nat) kv.1 kv.2
                      = false)
          (obj point_and_measurement 2%nat)
    ∧ (∀ key v,
         obj h' (filteredAttributes e) !! key = Some v ↔
         obj point_and_measurement 2%nat !! key = Some v
         ∧ ¬ ∃ pv, obj point_and_measurement 1%nat !! key = Some pv
                   ∧ strict_equals pv v = true)
    ∧ (obj point_and_measurement 1%nat
         = {[ "a" := ANumber 1; "b" := ANumber 2 ]} →
       obj point_and_measurement 2%nat =
         {[ "a" := ANumber 1; "b" := ANumber 2; "c" := ANumber 3 ]} →
       obj h' (filteredAttributes e) = {[ "c" := ANumber 3 ]}).
Proof.
  apply (getAndReset_filteredAttributes
           (StorageItem.offerMeasurement StorageItem.new 7 (1%float, 5%float)
              2%nat {| activeSpan := None |})
           point_and_measurement 1%nat 2%nat).
  reflexivity.
Defined.

(** ** FixedSizeExemplarReservoirBase *)

Module Import Reservoir := FixedSizeExemplarReservoirBase.

Section ReservoirProperties.
Context {Fields : Type} `{!Strategy Fields}.
Implicit Types (r : Reservoir.t Fields) (h : Heap) (p : loc)
  (items : list StorageItem.t).

Lemma getAndReset_drained (item : StorageItem.t) h p :
  (StorageItem.getAndReset item h p).1.1 = drained item.
Proof.
  unfold StorageItem.getAndReset, drained, occupied. by case_match.
Qed.

Lemma forEach_item_spec items : ∀ h p,
  (forEach_item items h p).1.1 = drained <$> items
  ∧ (forEach_item items h p).2 = omap pending items.
Proof.
  induction items as [|item items IH]; intros h p; simpl; [done|].
  pose proof (getAndReset_drained item h p) as Hd.
  pose proof (getAndReset_pending item h p) as Hp.
  destruct (StorageItem.getAndReset item h p) as [[item' h1] res].
  simpl in Hd, Hp. subst.
  destruct (IH h1 p) as [Hi Ho].
  destruct (forEach_item items h1 p) as [[rest' h2] retVal].
  simpl in *. subst. split; [done|]. by destruct (pending item).
Qed.

Lemma collectAndReset_storage r h p :
  _reservoirStorage (collectAndReset r h p).1.1
    = drained <$> _reservoirStorage r.
Proof.
  unfold collectAndReset.
  pose proof (forEach_item_spec (_reservoirStorage r) h p) as [Hi _].
  destruct (forEach_item _ h p) as [[items h'] retVal]. done.
Qed.

Lemma collectAndReset_result r h p :
  (collectAndReset r h p).2 = omap pending (_reservoirStorage r).
Proof.
  unfold collectAndReset.
  pose proof (forEach_item_spec (_reservoirStorage r) h p) as [_ Ho].
  destruct (forEach_item _ h p) as [[items h'] retVal]. done.
Qed.

Lemma collectAndReset_size r h p :
  _size (collectAndReset r h p).1.1 = _size r.
Proof.
  unfold collectAndReset.
  destruct (forEach_item _ h p) as [[items h'] retVal]. done.
Qed.

(** What an offer does, by the index the strategy answers. *)
Lemma offerMeasurement_cases r h v ts a ctx :
  let index := (reservoirIndexFor (sub r) h v ts a ctx).1 in
  let out := offerMeasurement r h v ts a ctx in
  _size out.1 = _size r
  ∧ sub out.1 = (reservoirIndexFor (sub r) h v ts a ctx).2
  ∧ ((index = -1
      ∧ _reservoirStorage out.1 = _reservoirStorage r
      ∧ out.2 = Normal ())
     ∨ (index ≠ -1
        ∧ ¬ (0 ≤ index < Z.of_nat (length (_reservoirStorage r)))
        ∧ _reservoirStorage out.1 = _reservoirStorage r
        ∧ out.2 = Throw TypeError)
     ∨ (∃ item,
          0 ≤ index < Z.of_nat (length (_reservoirStorage r))
          ∧ _reservoirStorage r !! Z.to_nat index = Some item
          ∧ _reservoirStorage out.1 =
              <[Z.to_nat index :=
                  StorageItem.offerMeasurement item v ts a ctx]>
                (_reservoirStorage r)
          ∧ out.2 = Normal ())).
Proof.
  simpl. unfold offerMeasurement.
  destruct (reservoirIndexFor (sub r) h v ts a ctx) as [index fields].
  simpl. case_bool_decide as Hm.
  - unfold array_get. case_bool_decide as H0.
    + destruct (_reservoirStorage r !! Z.to_nat index) as [item|] eqn:E;
        simpl; (split; [done|]); (split; [done|]); right.
      * right. exists item. apply lookup_lt_Some in E.
        split; [lia|done].
      * left. apply lookup_ge_None in E. split; [done|].
        split; [lia|done].
    + simpl. split; [done|]. split; [done|]. right. left.
      split; [done|]. split; [lia|done].
  - simpl. split; [done|]. split; [done|]. left.
    split; [|done]. destruct (decide (index = -1)); [done|]. by destruct Hm.
Qed.

Lemma pristine_drained item : pristine item → drained item = StorageItem.new.
Proof.
  unfold pristine, drained. destruct (occupied item); [done|]. auto.
Qed.

Lemma reachable_inv N r :
  reachable N r →
  0 ≤ N ≤ MAX_ARRAY_LENGTH
  ∧ _size r = N
  ∧ length (_reservoirStorage r) = Z.to_nat N
  ∧ Forall pristine (_reservoirStorage r).
Proof.
  induction 1 as [fields r Hc | r h v ts a ctx Hr IH | r h p Hr IH].
  - unfold constructor in Hc. case_bool_decide as HN; [|done].
    injection Hc as <-. simpl. split; [done|]. split; [done|].
    split; [by rewrite length_replicate|].
    apply Forall_replicate. by intros _.
  - destruct IH as (HN & Hs & Hl & Hp). split; [done|].
    destruct (offerMeasurement_cases r h v ts a ctx)
      as (Hsz & _ & [(_ & -> & _) | [(_ & _ & -> & _) | (item & _ & _ & -> & _)]]);
      (split; [congruence|]); try done.
    split; [by rewrite length_insert|].
    apply Forall_insert; [done|]. by intros ?.
  - destruct IH as (HN & Hs & Hl & Hp). split; [done|].
    rewrite collectAndReset_size, collectAndReset_storage.
    split; [done|]. split; [by rewrite length_fmap|].
    apply Forall_fmap. eapply Forall_impl; [exact Hp|].
    intros item Hi. simpl. rewrite pristine_drained by done. by intros _.
Qed.

End ReservoirProperties.

(** ** Occupied slots in array order *)

Section OccupiedSlots.
Implicit Types (items : list StorageItem.t).

Lemma occupied_pending item : occupied item = true ↔ is_Some (pending item).
Proof.
  unfold occupied, pending.
  destruct (StorageItem.attributes item); split; intros H;
    first [done | by eauto | by destruct H].
Qed.

Lemma elem_of_occupied_slots items k :
  k ∈ occupied_slots items ↔
  ∃ item, items !! k = Some item ∧ occupied item = true.
Proof.
  revert k. induction items as [|item items IH]; intros k; simpl.
  - split; [by intros ?%elem_of_nil|by intros (? & ? & _)].
  - rewrite elem_of_app, list_elem_of_fmap. split.
    + intros [Hk | (k' & -> & Hk')].
      * destruct (occupied item) eqn:E; [|by apply elem_of_nil in Hk].
        apply list_elem_of_singleton in Hk as ->. eauto.
      * apply IH in Hk'. done.
    + intros (item' & Hl & Ho). destruct k as [|k]; simpl in Hl.
      * injection Hl as ->. rewrite Ho. left. by apply list_elem_of_singleton.
      * right. exists k. split; [done|]. apply IH. eauto.
Qed.

Lemma occupied_slots_sorted items : StronglySorted lt (occupied_slots items).
Proof.
  induction items as [|item items IH]; simpl; [constructor|].
  assert (StronglySorted lt (S <$> occupied_slots items)) as Hs.
  { eapply StronglySorted_fmap; [|exact IH]. intros x y. lia. }
  destruct (occupied item); simpl; [|done].
  constructor; [done|]. apply Forall_fmap, Forall_forall. intros x _.
  simpl. lia.
Qed.

Lemma occupied_slots_exemplars items :
  Forall2 (exemplar_of_slot items) (occupied_slots items)
    (omap pending items).
Proof.
  induction items as [|item items IH]; simpl; [constructor|].
  assert (Forall2 (exemplar_of_slot (item :: items))
            (S <$> occupied_slots items) (omap pending items)) as Hrest.
  { apply Forall2_fmap_l. eapply Forall2_impl; [exact IH|].
    intros k e (item' & Hl & Hp). by exists item'. }
  destruct (pending item) as [e|] eqn:Ep.
  - assert (occupied item = true) as -> by (apply occupied_pending; eauto).
    simpl. constructor; [by exists item|done].
  - assert (occupied item = false) as ->; [|done].
    destruct (occupied item) eqn:Eo; [|done].
    apply occupied_pending in Eo as [? ?]. congruence.
Qed.

Lemma length_omap_pending items :
  (length (omap pending items) ≤ length items)%nat.
Proof.
  induction items as [|item items IH]; [done|]. csimpl.
  destruct (pending item); simpl; lia.
Qed.

End OccupiedSlots.

(** ** The claims about the reservoir *)

Lemma StronglySorted_lt_NoDup (l : list nat) : StronglySorted lt l → NoDup l.
Proof.
  induction 1 as [|x l Hs IH Hall]; constructor; [|done].
  intros Hin. rewrite Forall_forall in Hall. specialize (Hall x Hin). lia.
Qed.

Lemma omap_pending_new (n : nat) :
  omap pending (replicate n StorageItem.new) = [].
Proof. induction n as [|n IH]; [done|]. simpl. done. Qed.

Lemma omap_pending_insert (items : list StorageItem.t) (i : nat)
    (item : StorageItem.t) :
  (i < length items)%nat →
  omap pending (<[i := item]> items) =
  omap pending (take i items) ++ omap pending [item]
    ++ omap pending (drop (S i) items).
Proof.
  intros Hi. rewrite insert_take_drop by done.
  rewrite omap_app. f_equal.
  by rewrite (omap_app _ [item] (drop (S i) items)).
Qed.

Section ReservoirClaims.
Context {Fields : Type} `{!Strategy Fields}.
Implicit Types (r : Reservoir.t Fields) (h : Heap) (p : loc).

(** An offer whose index is outside the array writes nothing. *)
Lemma offerMeasurement_outside r h v ts a ctx :
  ¬ (0 ≤ (reservoirIndexFor (sub r) h v ts a ctx).1
       < Z.of_nat (length (_reservoirStorage r))) →
  _reservoirStorage (offerMeasurement r h v ts a ctx).1
    = _reservoirStorage r
  ∧ ((reservoirIndexFor (sub r) h v ts a ctx).1 = -1 →
     (offerMeasurement r h v ts a ctx).2 = Normal ())
  ∧ ((reservoirIndexFor (sub r) h v ts a ctx).1 ≠ -1 →
     (offerMeasurement r h v ts a ctx).2 = Throw TypeError).
Proof.
  intros Hout.
  destruct (offerMeasurement_cases r h v ts a ctx)
    as (_ & _ & [(Hi & Hst & Hc) | [(Hi & _ & Hst & Hc)
                                   | (item & Hi & _)]]).
  - split; [done|]. split; [done|]. by intros ?.
  - split; [done|]. split; [by intros ?|done].
  - by destruct Hout.
Qed.

(** C1, as the code has it. For a reservoir of capacity [N] and an index
    returned by [reservoirIndexFor] outside [0, N), [offerMeasurement]
    leaves every slot and the size as they were; it returns normally when
    the index is the sentinel [-1], and throws a [TypeError] for every
    other index outside the range. *)
Theorem offerMeasurement_outside_range N r h v ts a ctx :
  reachable N r →
  ¬ (0 ≤ (reservoirIndexFor (sub r) h v ts a ctx).1 < N) →
  _reservoirStorage (offerMeasurement r h v ts a ctx).1
    = _reservoirStorage r
  ∧ _size (offerMeasurement r h v ts a ctx).1 = _size r
  ∧ ((reservoirIndexFor (sub r) h v ts a ctx).1 = -1 →
     (offerMeasurement r h v ts a ctx).2 = Normal ())
  ∧ ((reservoirIndexFor (sub r) h v ts a ctx).1 ≠ -1 →
     (offerMeasurement r h v ts a ctx).2 = Throw TypeError).
Proof.
  intros Hr Hout. destruct (reachable_inv N r Hr) as (HN & _ & Hl & _).
  destruct (offerMeasurement_outside r h v ts a ctx) as (Hst & Hn & Ht).
  { rewrite Hl. intros Hin. apply Hout. lia. }
  split; [done|]. split; [|done].
  by destruct (offerMeasurement_cases r h v ts a ctx) as (Hsz & _).
Qed.

(** C3. For every capacity [N] and every sequence of offers,
    [collectAndReset] returns at most [N] exemplars: one for each
    occupied slot, of distinct slots, in ascending order of the slot
    index. *)
Theorem collectAndReset_ascending N r h p :
  reachable N r →
  Z.of_nat (length (collectAndReset r h p).2) ≤ N
  ∧ (∀ k, k ∈ occupied_slots (_reservoirStorage r) ↔
          ∃ item, _reservoirStorage r !! k = Some item
                  ∧ occupied item = true)
  ∧ Forall (λ k, 0 ≤ Z.of_nat k < N) (occupied_slots (_reservoirStorage r))
  ∧ StronglySorted lt (occupied_slots (_reservoirStorage r))
  ∧ NoDup (occupied_slots (_reservoirStorage r))
  ∧ Forall2 (exemplar_of_slot (_reservoirStorage r))
      (occupied_slots (_reservoirStorage r)) (collectAndReset r h p).2.
Proof.
  intros Hr. destruct (reachable_inv N r Hr) as (HN & _ & Hl & _).
  rewrite collectAndReset_result.
  pose proof (length_omap_pending (_reservoirStorage r)) as Hlen.
  split; [lia|]. split; [apply elem_of_occupied_slots|].
  split.
  { apply Forall_forall. intros k Hk.
    apply elem_of_occupied_slots in Hk as (item & Hk & _).
    apply lookup_lt_Some in Hk. lia. }
  split; [apply occupied_slots_sorted|].
  split; [apply StronglySorted_lt_NoDup, occupied_slots_sorted|].
  apply occupied_slots_exemplars.
Qed.

(** C4. After [collectAndReset] every slot is empty: value zero, no
    attributes, timestamp zero, no span and trace identifiers; a second
    [collectAndReset] with no offer in between returns the empty
    sequence. *)
Theorem collectAndReset_empties N r h p :
  reachable N r →
  _reservoirStorage (collectAndReset r h p).1.1
    = replicate (Z.to_nat N) StorageItem.new
  ∧ Forall (λ item,
      StorageItem.value item = 0%float
      ∧ StorageItem.attributes item = None
      ∧ StorageItem.timestamp item = (0%float, 0%float)
      ∧ StorageItem.spanId item = None
      ∧ StorageItem.traceId item = None)
      (_reservoirStorage (collectAndReset r h p).1.1)
  ∧ ∀ h2 p2, (collectAndReset (collectAndReset r h p).1.1 h2 p2).2 = [].
Proof.
  intros Hr. destruct (reachable_inv N r Hr) as (HN & _ & Hl & Hp).
  assert (_reservoirStorage (collectAndReset r h p).1.1
          = replicate (Z.to_nat N) StorageItem.new) as Hst.
  { rewrite collectAndReset_storage, <- Hl.
    clear Hl. induction Hp as [|item items Hi _ IH]; [done|].
    csimpl. by rewrite IH, pristine_drained. }
  split; [done|]. split.
  - rewrite Hst. by apply Forall_replicate.
  - intros h2 p2. rewrite collectAndReset_result, Hst.
    apply omap_pending_new.
Qed.

(** An offer keeps the number of slots, and writes no slot but the one of
    its index. *)
Lemma offer_length r m :
  length (_reservoirStorage (offer r m).1) = length (_reservoirStorage r).
Proof.
  unfold offer.
  destruct (offerMeasurement_cases r (m_store m) (m_value m) (m_timestamp m)
              (m_attributes m) (m_ctx m))
    as (_ & _ & [(_ & -> & _) | [(_ & _ & -> & _) | (item & _ & _ & -> & _)]]);
    try done.
  by rewrite length_insert.
Qed.

Lemma offer_other_slot r m (i : nat) :
  index_for r m ≠ Z.of_nat i →
  _reservoirStorage (offer r m).1 !! i = _reservoirStorage r !! i.
Proof.
  unfold offer, index_for. intros Hne.
  destruct (offerMeasurement_cases r (m_store m) (m_value m) (m_timestamp m)
              (m_attributes m) (m_ctx m))
    as (_ & _ & [(_ & -> & _) | [(_ & _ & -> & _) | (item & Hi & _ & -> & _)]]);
    try done.
  apply list_lookup_insert_ne. lia.
Qed.

Lemma offer_same_slot r m (i : nat) :
  (i < length (_reservoirStorage r))%nat →
  index_for r m = Z.of_nat i →
  (offer r m).2 = Normal ()
  ∧ _reservoirStorage (offer r m).1 !! i = Some (stored m).
Proof.
  unfold offer, index_for. intros Hi Hidx.
  destruct (offerMeasurement_cases r (m_store m) (m_value m) (m_timestamp m)
              (m_attributes m) (m_ctx m))
    as (_ & _ & [(E & _) | [(_ & E & _) | (item & _ & _ & Hst & Hc)]]);
    [rewrite Hidx in E; lia | rewrite Hidx in E; lia |].
  split; [done|]. rewrite Hst, Hidx, Nat2Z.id.
  by apply list_lookup_insert_eq.
Qed.

Lemma offer_all_length r ms :
  length (_reservoirStorage (offer_all r ms)) = length (_reservoirStorage r).
Proof.
  revert r. induction ms as [|m ms IH]; intros r; [done|].
  unfold offer_all in *. simpl. by rewrite IH, offer_length.
Qed.

Lemma offer_all_other_slots r ms (i : nat) :
  none_to i r ms →
  _reservoirStorage (offer_all r ms) !! i = _reservoirStorage r !! i.
Proof.
  revert r. induction ms as [|m ms IH]; intros r; [done|].
  intros [Hm Hms]. unfold offer_all in *. simpl.
  by rewrite IH, offer_other_slot.
Qed.

(** C5. Of two offers sent to the same slot before a collect, whatever is
    offered between them and whatever is offered to other slots after
    them, the second overwrites every field the first stored: both return
    normally, the slot holds the second measurement alone, and the
    exemplar collected for the slot has its value, attributes, timestamp
    and identifiers. *)
Theorem offerMeasurement_overwrites r (i : nat)
    (m1 : Measurement) (between : list Measurement)
    (m2 : Measurement) (after : list Measurement) :
  (i < length (_reservoirStorage r))%nat →
  index_for r m1 = Z.of_nat i →
  index_for (offer_all (offer r m1).1 between) m2 = Z.of_nat i →
  none_to i (offer (offer_all (offer r m1).1 between) m2).1 after →
  let r2 := offer_all (offer r m1).1 between in
  let r4 := offer_all (offer r2 m2).1 after in
  (offer r m1).2 = Normal ()
  ∧ (offer r2 m2).2 = Normal ()
  ∧ _reservoirStorage (offer r2 m2).1 !! i = Some (stored m2)
  ∧ _reservoirStorage r4 !! i = Some (stored m2)
  ∧ ∀ h p,
      (collectAndReset r4 h p).2 =
      omap pending (take i (_reservoirStorage r4))
      ++ [exemplar_of m2]
      ++ omap pending (drop (S i) (_reservoirStorage r4)).
Proof.
  intros Hi H1 H2 Hafter r2 r4.
  destruct (offer_same_slot r m1 i Hi H1) as [Hc1 _].
  assert (i < length (_reservoirStorage r2))%nat as Hi2.
  { subst r2. by rewrite offer_all_length, offer_length. }
  destruct (offer_same_slot r2 m2 i Hi2 H2) as [Hc2 Hs2].
  assert (_reservoirStorage r4 !! i = Some (stored m2)) as Hs4.
  { subst r4. by rewrite offer_all_other_slots. }
  split; [done|]. split; [done|]. split; [done|]. split; [done|].
  intros h p. rewrite collectAndReset_result.
  rewrite <- (take_drop_middle (_reservoirStorage r4) i (stored m2)) at 1
    by done.
  rewrite omap_app. by f_equal.
Qed.

(** C6, as the code has it. A reservoir of capacity 0 has no slot:
    [collectAndReset] always returns the empty sequence, and
    [offerMeasurement] never writes a slot; it returns normally when the
    strategy answers [-1] and throws a [TypeError] for any other index. *)
Theorem zero_capacity r :
  reachable 0 r →
  _reservoirStorage r = []
  ∧ (∀ h p, (collectAndReset r h p).2 = [])
  ∧ ∀ h v ts a ctx,
      _reservoirStorage (offerMeasurement r h v ts a ctx).1 = []
      ∧ ((reservoirIndexFor (sub r) h v ts a ctx).1 = -1 →
         (offerMeasurement r h v ts a ctx).2 = Normal ())
      ∧ ((reservoirIndexFor (sub r) h v ts a ctx).1 ≠ -1 →
         (offerMeasurement r h v ts a ctx).2 = Throw TypeError).
Proof.
  intros Hr. destruct (reachable_inv 0 r Hr) as (_ & _ & Hl & _).
  assert (_reservoirStorage r = []) as Hnil.
  { by destruct (_reservoirStorage r). }
  split; [done|]. split.
  - intros h p. by rewrite collectAndReset_result, Hnil.
  - intros h v ts a ctx.
    destruct (offerMeasurement_outside r h v ts a ctx)
      as (Hst & Hn & Ht); [rewrite Hnil; simpl; lia|].
    by rewrite Hst.
Qed.

End ReservoirClaims.

(** C7. An offer under a context with an active span stores, and
    [getAndReset] later returns, that span's [spanId] and [traceId]; under
    a context with no active span the offer stores the measurement all the
    same, and the exemplar has neither identifier. *)
Theorem offerMeasurement_span_identifiers
    (this : StorageItem.t) (v : float) (ts : HrTime) (a : loc)
    (sc : SpanContext) (h : Heap) (p : loc) :
  let traced :=
    StorageItem.offerMeasurement this v ts a {| activeSpan := Some sc |} in
  let untraced :=
    StorageItem.offerMeasurement this v ts a {| activeSpan := None |} in
  StorageItem.spanId traced = Some (sc_spanId sc)
  ∧ StorageItem.traceId traced = Some (sc_traceId sc)
  ∧ (StorageItem.getAndReset traced h p).2 =
      Some (Build_Exemplar a v ts (Some (sc_spanId sc)) (Some (sc_traceId sc)))
  ∧ StorageItem.spanId untraced = None
  ∧ StorageItem.traceId untraced = None
  ∧ (StorageItem.getAndReset untraced h p).2 =
      Some (Build_Exemplar a v ts None None).
Proof. by repeat split. Qed.

Section Occupancy.
Context {Fields : Type} `{!Strategy Fields}.
Implicit Types (r : Reservoir.t Fields) (h : Heap) (p : loc).

(** C9. A slot is occupied exactly when its attributes reference is not
    [null]. An accepted offer, whatever its value, timestamp and
    attributes, leaves the slot occupied, and the next [collectAndReset]
    returns an exemplar for it. *)
Theorem accepted_offer_occupies r h v ts a ctx (i : nat) :
  (i < length (_reservoirStorage r))%nat →
  (reservoirIndexFor (sub r) h v ts a ctx).1 = Z.of_nat i →
  (offerMeasurement r h v ts a ctx).2 = Normal ()
  ∧ (∃ item,
       _reservoirStorage (offerMeasurement r h v ts a ctx).1 !! i
         = Some item
       ∧ StorageItem.attributes item = Some a
       ∧ StorageItem.value item = v
       ∧ StorageItem.timestamp item = ts
       ∧ occupied item = true)
  ∧ (∀ h' p,
       Build_Exemplar a v ts
         (sc_spanId <$> activeSpan ctx) (sc_traceId <$> activeSpan ctx)
       ∈ (collectAndReset (offerMeasurement r h v ts a ctx).1 h' p).2)
  ∧ (∀ (item : StorageItem.t) h' p,
       is_Some (StorageItem.getAndReset item h' p).2
       ↔ StorageItem.attributes item ≠ None).
Proof.
  intros Hi Hidx.
  destruct (offerMeasurement_cases r h v ts a ctx)
    as (_ & _ & [(E & _) | [(_ & E & _) | (item & _ & _ & Hst & Hc)]]);
    [rewrite Hidx in E; lia | rewrite Hidx in E; lia |].
  rewrite Hidx, Nat2Z.id in Hst.
  assert (_reservoirStorage (offerMeasurement r h v ts a ctx).1 !! i
          = Some (StorageItem.offerMeasurement item v ts a ctx)) as Hl.
  { rewrite Hst. by apply list_lookup_insert_eq. }
  split; [done|]. split; [by eexists|]. split.
  - intros h' p. rewrite collectAndReset_result.
    apply list_elem_of_omap.
    exists (StorageItem.offerMeasurement item v ts a ctx).
    split; [by eapply list_elem_of_lookup_2|done].
  - intros it h' p. rewrite getAndReset_pending. unfold pending.
    destruct (StorageItem.attributes it); split; intros H;
      first [done | by eauto | by destruct H].
Qed.

End Occupancy.

(** ** clientUtils: the span of a streaming call *)

Module Import Client := ClientUtils.

Lemma ends_app (l1 l2 : list SpanCall) : ends (l1 ++ l2) = (ends l1 + ends l2)%nat.
Proof.
  induction l1 as [|m l1 IH]; [done|]. simpl. destruct m; simpl; lia.
Qed.

Section StreamingCall.
Context `{!Utils}.
Implicit Types (c : StreamCall) (e : Event) (calls : list SpanCall).

(** Once the flag on the call is set, a listener returns at once. *)
Lemma emit_after_end c e : CALL_SPAN_ENDED c = true → emit c e = c.
Proof.
  intros Hc. destruct e; simpl; unfold on_error, on_status; by rewrite Hc.
Qed.

Lemma emit_all_after_end c events :
  CALL_SPAN_ENDED c = true → emit_all c events = c.
Proof.
  intros Hc. unfold emit_all. induction events as [|e events IH]; [done|].
  simpl. by rewrite emit_after_end.
Qed.

(** The first event: both guards are set and the span receives its
    status and attributes, then [end()], once. *)
Lemma emit_first calls e :
  CALL_SPAN_ENDED (emit (registered calls) e) = true
  ∧ spanEnded (emit (registered calls) e) = true
  ∧ ∃ m1 m2,
      span (emit (registered calls) e) = calls ++ [m1; m2; span_end]
      ∧ ends [m1; m2] = 0%nat.
Proof.
  destruct e; simpl; unfold on_error, on_status, endSpan; simpl;
    (split; [done|]); (split; [done|]);
    eexists _, _; rewrite <- !(assoc_L (++)); simpl;
    (split; [reflexivity|done]).
Qed.

(** C8. On a call with a response stream, whatever sequence of ['error']
    and ['status'] events arrives, [span.end()] is called exactly once:
    the first event ends the span and sets the guards, and every later
    event leaves the span, and the guards, as they are. *)
Theorem span_ended_exactly_once calls e events :
  ends (span (emit (registered calls) e)) = S (ends calls)
  ∧ CALL_SPAN_ENDED (emit (registered calls) e) = true
  ∧ spanEnded (emit (registered calls) e) = true
  ∧ emit_all (registered calls) (e :: events) = emit (registered calls) e
  ∧ ends (span (emit_all (registered calls) (e :: events)))
      = S (ends calls)
  ∧ ends (span (emit_all (registered []) (e :: events))) = 1%nat
  ∧ ∀ later,
      emit (emit_all (registered calls) (e :: events)) later
        = emit_all (registered calls) (e :: events).
Proof.
  destruct (emit_first calls e) as (Hc & Hs & m1 & m2 & Hspan & Hm).
  assert (ends (span (emit (registered calls) e)) = S (ends calls)) as He.
  { rewrite Hspan, ends_app.
    change [m1; m2; span_end] with ([m1; m2] ++ [span_end]).
    rewrite ends_app, Hm. simpl. lia. }
  assert (∀ cs, emit_all (registered cs) (e :: events)
                = emit (registered cs) e) as Hall.
  { intros cs. unfold emit_all. simpl. apply emit_all_after_end.
    apply emit_first. }
  split; [done|]. split; [done|]. split; [done|]. split; [apply Hall|].
  split; [by rewrite Hall|]. split.
  - rewrite Hall. destruct (emit_first [] e) as (_ & _ & n1 & n2 & Hn & Hn0).
    rewrite Hn.
    change ([] ++ [n1; n2; span_end]) with ([n1; n2] ++ [span_end]).
    by rewrite ends_app, Hn0.
  - intros later. rewrite Hall. by apply emit_after_end.
Qed.

End StreamingCall.

(** ** clientUtils: getMetadata *)

Section FindIndex.
Context {A : Type} (pred : A → bool).

Lemma findIndex_from_none (a : list A) (i : Z) :
  Forall (λ x, pred x = false) a → findIndex_from pred a i = -1.
Proof.
  intros Hall. revert i. induction Hall as [|x a Hx _ IH]; intros i; simpl.
  - done.
  - by rewrite Hx.
Qed.

Lemma findIndex_from_first (a : list A) (i : Z) (k : nat) (x : A) :
  a !! k = Some x →
  pred x = true →
  (∀ j y, (j < k)%nat → a !! j = Some y → pred y = false) →
  findIndex_from pred a i = i + Z.of_nat k.
Proof.
  revert i k. induction a as [|y a IH]; intros i k Hk Hx Hbefore.
  - done.
  - destruct k as [|k]; simpl in *.
    + injection Hk as ->. rewrite Hx. lia.
    + rewrite (Hbefore 0%nat y) by first [lia | done].
      rewrite (IH (i + 1) k); [lia|done|done|].
      intros j z Hj Hz. apply (Hbefore (S j) z); [lia|done].
Qed.

End FindIndex.

Lemma length_splice_insert {A} (a : list A) (start : Z) (item : A) :
  length (splice_insert a start item) = S (length a).
Proof.
  unfold splice_insert. rewrite length_app. simpl.
  rewrite length_take, length_drop. lia.
Qed.

Lemma splice_insert_at {A} (a : list A) (start : nat) (item : A) :
  splice_insert a (Z.of_nat start) item =
  take (start `min` length a) a ++ item :: drop (start `min` length a) a.
Proof.
  unfold splice_insert. rewrite bool_decide_eq_false_2 by lia.
  by replace (Z.to_nat (Z.of_nat start `min` Z.of_nat (length a)))
    with (start `min` length a)%nat by lia.
Qed.

(** C10, as the code has it. [getMetadata] returns the first argument that
    looks like a [Metadata] and leaves [args] as they are. When there is
    none it constructs a new [Metadata], returns it, and inserts it into
    [args], which grow by exactly one element: at index 0 for a call with a
    request stream, and otherwise at index 1, or at index 0 when [args] is
    empty. *)
Theorem getMetadata_spec (grpcClient : GrpcJs) (original : GrpcClientFunc)
    (h : Objects) (args : list JsValue) :
  (∀ (k : nat) (m : JsValue),
     args !! k = Some m →
     isMetadata h m = true →
     (∀ j y, (j < k)%nat → args !! j = Some y → isMetadata h y = false) →
     getMetadata grpcClient original h args = (args, h, m))
  ∧ (Forall (λ arg, isMetadata h arg = false) args →
     ∃ l : loc,
       h !! l = None
       ∧ getMetadata grpcClient original h args =
           (take (insertion_index original args) args
              ++ JObject l :: drop (insertion_index original args) args,
            <[l := Metadata_properties grpcClient]> h,
            JObject l)
       ∧ (getMetadata grpcClient original h args).1.1
           !! insertion_index original args = Some (JObject l)
       ∧ length (getMetadata grpcClient original h args).1.1
           = S (length args)
       ∧ ((∀ l', JObject l' ∈ args → is_Some (h !! l')) →
          JObject l ∉ args)).
Proof.
  split.
  - intros k m Hk Hm Hfirst. unfold getMetadata, findIndex.
    rewrite (findIndex_from_first _ args 0 k m Hk Hm Hfirst).
    rewrite bool_decide_eq_false_2 by lia.
    unfold array_get. rewrite bool_decide_eq_true_2 by lia.
    replace (Z.to_nat (0 + Z.of_nat k)) with k by lia. by rewrite Hk.
  - intros Hnone. exists (fresh (dom h)).
    assert (h !! fresh (dom h) = None) as Hfresh.
    { apply not_elem_of_dom, is_fresh. }
    assert (getMetadata grpcClient original h args =
            (take (insertion_index original args) args
               ++ JObject (fresh (dom h))
               :: drop (insertion_index original args) args,
             <[fresh (dom h) := Metadata_properties grpcClient]> h,
             JObject (fresh (dom h)))) as Hget.
    { unfold getMetadata, findIndex, new_Metadata, insertion_index.
      rewrite (findIndex_from_none _ args 0 Hnone). simpl.
      destruct (requestStream original); simpl.
      - by rewrite (splice_insert_at args 0).
      - by rewrite (splice_insert_at args 1). }
    split; [done|]. split; [done|]. rewrite Hget. simpl.
    assert (insertion_index original args ≤ length args)%nat as Hle.
    { unfold insertion_index. destruct (requestStream original); lia. }
    split.
    { rewrite lookup_app_r by (rewrite length_take; lia).
      rewrite length_take.
      by replace (insertion_index original args -
                  insertion_index original args `min` length args)%nat
        with 0%nat by lia. }
    split.
    { rewrite length_app, length_take. simpl. rewrite length_drop. lia. }
    intros Hwf Hin. apply Hwf in Hin as [o Ho]. congruence.
Qed.

(** * The claims on concrete inputs *)

Lemma constructed_reachable (N : nat) (script : list Z) :
  (N ≤ 10)%nat → reachable (Z.of_nat N) (constructed N script).
Proof.
  intros HN. apply (reachable_new (Z.of_nat N) script).
  unfold constructor, constructed, MAX_ARRAY_LENGTH.
  rewrite bool_decide_eq_true_2 by lia. by rewrite Nat2Z.id.
Qed.

Lemma scenario_reachable : reachable 2 scenario_offered.
Proof.
  unfold scenario_offered. do 2 apply reachable_offer.
  apply (constructed_reachable 2). lia.
Qed.

(** The scenario of the specification: the two exemplars come out in slot
    order, the attributes the point implies are gone from the measurements'
    objects, and a second collect finds nothing. *)
Example scenario_collect :
  let out := collectAndReset scenario_offered scenario_store 1%nat in
  out.2 = [Build_Exemplar 2 5 T1 None None; Build_Exemplar 3 7 T2 None None]
  ∧ obj out.1.2 2%nat = ∅
  ∧ obj out.1.2 3%nat = {[ "b" := ANumber 2 ]}
  ∧ (collectAndReset out.1.1 out.1.2 1%nat).2 = [].
Proof. by vm_compute. Qed.

(** One attributes object offered to both slots and also passed as the
    point attributes: the first slot read empties the shared object. *)
Example shared_attributes_object :
  let offered :=
    (offerMeasurement
       (offerMeasurement (constructed 2 [0; 1]) scenario_store 5 T1 3%nat
          no_span).1
       scenario_store 7 T2 3%nat no_span).1 in
  let out := collectAndReset offered scenario_store 3%nat in
  out.2 = [Build_Exemplar 3 5 T1 None None; Build_Exemplar 3 7 T2 None None]
  ∧ obj out.1.2 3%nat = ∅.
Proof. by vm_compute. Qed.

(** C1 as stated fails: with capacity 2 and the index 5, outside [0, 2),
    the offer does not return normally. *)
Lemma offerMeasurement_index_5_throws :
  constructor 2 [5] = Normal (constructed 2 [5])
  ∧ (reservoirIndexFor (sub (constructed 2 [5])) scenario_store 5 T1 2%nat
       no_span).1 = 5
  ∧ ¬ (0 ≤ 5 < 2)
  ∧ (offerMeasurement (constructed 2 [5]) scenario_store 5 T1 2%nat
       no_span).2 = Throw TypeError
  ∧ (offerMeasurement (constructed 2 [5]) scenario_store 5 T1 2%nat
       no_span).2 ≠ Normal ().
Proof. repeat split; try done. lia. Qed.

Lemma offerMeasurement_outside_range_witness :
  _reservoirStorage
    (offerMeasurement (constructed 2 [-1]) scenario_store 5 T1 2%nat
       no_span).1
    = _reservoirStorage (constructed 2 [-1])
  ∧ _size
      (offerMeasurement (constructed 2 [-1]) scenario_store 5 T1 2%nat
         no_span).1
    = _size (constructed 2 [-1])
  ∧ ((reservoirIndexFor (sub (constructed 2 [-1])) scenario_store 5 T1 2%nat
        no_span).1 = -1 →
     (offerMeasurement (constructed 2 [-1]) scenario_store 5 T1 2%nat
        no_span).2 = Normal ())
  ∧ ((reservoirIndexFor (sub (constructed 2 [-1])) scenario_store 5 T1 2%nat
        no_span).1 ≠ -1 →
     (offerMeasurement (constructed 2 [-1]) scenario_store 5 T1 2%nat
        no_span).2 = Throw TypeError).
Proof.
  apply (offerMeasurement_outside_range 2 (constructed 2 [-1]) scenario_store
           5 T1 2%nat no_span).
  - apply (constructed_reachable 2). lia.
  - simpl. lia.
Defined.

Lemma collectAndReset_ascending_witness :
  Z.of_nat (length (collectAndReset scenario_offered scenario_store 1%nat).2)
    ≤ 2
  ∧ (∀ k, k ∈ occupied_slots (_reservoirStorage scenario_offered) ↔
          ∃ item, _reservoirStorage scenario_offered !! k = Some item
                  ∧ occupied item = true)
  ∧ Forall (λ k, 0 ≤ Z.of_nat k < 2)
      (occupied_slots (_reservoirStorage scenario_offered))
  ∧ StronglySorted lt (occupied_slots (_reservoirStorage scenario_offered))
  ∧ NoDup (occupied_slots (_reservoirStorage scenario_offered))
  ∧ Forall2 (exemplar_of_slot (_reservoirStorage scenario_offered))
      (occupied_slots (_reservoirStorage scenario_offered))
      (collectAndReset scenario_offered scenario_store 1%nat).2.
Proof.
  exact (collectAndReset_ascending 2 scenario_offered scenario_store 1%nat
           scenario_reachable).
Defined.

Lemma collectAndReset_empties_witness :
  _reservoirStorage (collectAndReset scenario_offered scenario_store 1%nat).1.1
    = replicate (Z.to_nat 2) StorageItem.new
  ∧ Forall (λ item,
      StorageItem.value item = 0%float
      ∧ StorageItem.attributes item = None
      ∧ StorageItem.timestamp item = (0%float, 0%float)
      ∧ StorageItem.spanId item = None
      ∧ StorageItem.traceId item = None)
      (_reservoirStorage
         (collectAndReset scenario_offered scenario_store 1%nat).1.1)
  ∧ ∀ h2 p2,
      (collectAndReset
         (collectAndReset scenario_offered scenario_store 1%nat).1.1
         h2 p2).2 = [].
Proof.
  exact (collectAndReset_empties 2 scenario_offered scenario_store 1%nat
           scenario_reachable).
Defined.

(** Two offers to slot 1 with an offer to slot 0 between them and a
    dropped offer after them. *)
Lemma offerMeasurement_overwrites_witness :
  let r := constructed 2 [1; 0; 1; -1] in
  let r2 := offer_all (offer r first_measurement).1 [traced_measurement] in
  let r4 := offer_all (offer r2 second_measurement).1 [traced_measurement] in
  (offer r first_measurement).2 = Normal ()
  ∧ (offer r2 second_measurement).2 = Normal ()
  ∧ _reservoirStorage (offer r2 second_measurement).1 !! 1%nat
      = Some (stored second_measurement)
  ∧ _reservoirStorage r4 !! 1%nat = Some (stored second_measurement)
  ∧ ∀ h p,
      (collectAndReset r4 h p).2 =
      omap pending (take 1 (_reservoirStorage r4))
      ++ [exemplar_of second_measurement]
      ++ omap pending (drop 2 (_reservoirStorage r4)).
Proof.
  apply (offerMeasurement_overwrites (constructed 2 [1; 0; 1; -1]) 1
           first_measurement [traced_measurement]
           second_measurement [traced_measurement]).
  - simpl. lia.
  - reflexivity.
  - reflexivity.
  - split; [by vm_compute|exact I].
Defined.

Example overwrite_collect :
  (collectAndReset
     (offer_all (constructed 2 [1; 0; 1; -1])
        [first_measurement; traced_measurement; second_measurement;
         traced_measurement])
     scenario_store 1%nat).2
  = [exemplar_of traced_measurement; exemplar_of second_measurement].
Proof. by vm_compute. Qed.

(** C6 as stated fails: with capacity 0 and a strategy that answers 0, the
    offer is not a no-op: it throws. *)
Lemma zero_capacity_offer_throws :
  constructor 0 [0] = Normal (constructed 0 [0])
  ∧ (offerMeasurement (constructed 0 [0]) scenario_store 5 T1 2%nat
       no_span).2 = Throw TypeError
  ∧ (offerMeasurement (constructed 0 [0]) scenario_store 5 T1 2%nat
       no_span).2 ≠ Normal ().
Proof. by repeat split. Qed.

Lemma zero_capacity_witness :
  _reservoirStorage (constructed 0 [-1; 0]) = []
  ∧ (∀ h p, (collectAndReset (constructed 0 [-1; 0]) h p).2 = [])
  ∧ ∀ h v ts a ctx,
      _reservoirStorage
        (offerMeasurement (constructed 0 [-1; 0]) h v ts a ctx).1 = []
      ∧ ((reservoirIndexFor (sub (constructed 0 [-1; 0])) h v ts a ctx).1
           = -1 →
         (offerMeasurement (constructed 0 [-1; 0]) h v ts a ctx).2
           = Normal ())
      ∧ ((reservoirIndexFor (sub (constructed 0 [-1; 0])) h v ts a ctx).1
           ≠ -1 →
         (offerMeasurement (constructed 0 [-1; 0]) h v ts a ctx).2
           = Throw TypeError).
Proof.
  apply (zero_capacity (constructed 0 [-1; 0])).
  apply (constructed_reachable 0). lia.
Defined.

(** An accepted offer of the value 0 at the timestamp [0, 0] with an empty
    attributes object. *)
Lemma accepted_offer_occupies_witness :
  (offerMeasurement (constructed 1 [0]) scenario_store 0
     (0%float, 0%float) 4%nat no_span).2 = Normal ()
  ∧ (∃ item,
       _reservoirStorage
         (offerMeasurement (constructed 1 [0]) scenario_store 0
            (0%float, 0%float) 4%nat no_span).1 !! 0%nat = Some item
       ∧ StorageItem.attributes item = Some 4%nat
       ∧ StorageItem.value item = 0%float
       ∧ StorageItem.timestamp item = (0%float, 0%float)
       ∧ occupied item = true)
  ∧ (∀ h' p,
       Build_Exemplar 4 0 (0%float, 0%float)
         (sc_spanId <$> activeSpan no_span)
         (sc_traceId <$> activeSpan no_span)
       ∈ (collectAndReset
            (offerMeasurement (constructed 1 [0]) scenario_store 0
               (0%float, 0%float) 4%nat no_span).1 h' p).2)
  ∧ (∀ (item : StorageItem.t) h' p,
       is_Some (StorageItem.getAndReset item h' p).2
       ↔ StorageItem.attributes item ≠ None).
Proof.
  apply (accepted_offer_occupies (constructed 1 [0]) scenario_store 0
           (0%float, 0%float) 4%nat no_span 0).
  - simpl. lia.
  - reflexivity.
Defined.

(** C10 as stated fails: a call without a request stream and without
    arguments gets the new metadata at index 0, and nothing at index 1. *)
Lemma getMetadata_no_arguments :
  (getMetadata a_grpcClient unary ∅ []).1.1 !! 1%nat = None
  ∧ (getMetadata a_grpcClient unary ∅ []).1.1 = [JObject 0]
  ∧ (getMetadata a_grpcClient unary ∅ []).2 = JObject 0.
Proof. by vm_compute. Qed.

(** A unary call with a request and a callback: the new metadata goes
    between them. *)
Lemma getMetadata_spec_witness :
  ∃ l : loc,
    call_store !! l = None
    ∧ getMetadata a_grpcClient unary call_store call_args =
        (take (insertion_index unary call_args) call_args
           ++ JObject l :: drop (insertion_index unary call_args) call_args,
         <[l := Metadata_properties a_grpcClient]> call_store,
         JObject l)
    ∧ (getMetadata a_grpcClient unary call_store call_args).1.1
        !! insertion_index unary call_args = Some (JObject l)
    ∧ length (getMetadata a_grpcClient unary call_store call_args).1.1
        = S (length call_args)
    ∧ ((∀ l', JObject l' ∈ call_args → is_Some (call_store !! l')) →
       JObject l ∉ call_args).
Proof.
  apply (proj2 (getMetadata_spec a_grpcClient unary call_store call_args)).
  unfold call_args. repeat constructor.
Defined.

Example getMetadata_inserts_between :
  (getMetadata a_grpcClient unary call_store call_args).1.1
    = [JObject 0; JObject 2; JFunction 1].
Proof. by vm_compute. Qed.

(** A metadata among the arguments is returned as it is. *)
Example getMetadata_finds :
  let h : Objects :=
    <[5%nat := {[ "internalRepr" := JObject 9; "getMap" := JFunction 8 ]}]>
      call_store in
  getMetadata a_grpcClient unary h [JObject 0; JObject 5; JFunction 1]
    = ([JObject 0; JObject 5; JFunction 1], h, JObject 5).
Proof. by vm_compute. Qed.

(** * Further properties of the reservoir *)

(** Two stores with the same objects behind the same references. *)
Lemma heap_ext (h1 h2 : Heap) :
  dom h1 = dom h2 → (∀ l, obj h1 l = obj h2 l) → h1 = h2.
Proof.
  intros Hdom Hobj. apply map_eq. intros l. specialize (Hobj l).
  unfold obj in Hobj.
  destruct (h1 !! l) as [o1|] eqn:E1; destruct (h2 !! l) as [o2|] eqn:E2;
    simpl in Hobj; try congruence.
  - apply mk_is_Some, elem_of_dom in E1. rewrite Hdom in E1.
    apply elem_of_dom in E1 as [? E1]. congruence.
  - apply mk_is_Some, elem_of_dom in E2. rewrite <- Hdom in E2.
    apply elem_of_dom in E2 as [? E2]. congruence.
Qed.

Lemma filtered_subseteq (point attrs : Attributes) :
  filtered point attrs ⊆ attrs.
Proof. apply map_filter_subseteq. Qed.

Lemma filtered_lookup_Some (point attrs : Attributes) key v :
  filtered point attrs !! key = Some v ↔
  attrs !! key = Some v ∧ implied point key v = false.
Proof. unfold filtered. by rewrite map_lookup_filter_Some. Qed.

(** The store after [getAndReset]: the object the slot holds is filtered,
    every other object is as it was. *)
Lemma getAndReset_store (this : StorageItem.t) (h : Heap) (p : loc) :
  dom (StorageItem.getAndReset this h p).1.2 = dom h
  ∧ (∀ l, StorageItem.attributes this ≠ Some l →
          (StorageItem.getAndReset this h p).1.2 !! l = h !! l)
  ∧ (∀ l, StorageItem.attributes this = Some l →
          obj (StorageItem.getAndReset this h p).1.2 l
            = filtered (obj h p) (obj h l)).
Proof.
  unfold StorageItem.getAndReset.
  destruct (StorageItem.attributes this) as [cur|] eqn:E; simpl.
  - destruct (forEach_key_spec (Object_keys h p) h p cur
                (NoDup_Object_keys h p)) as (Hdom & Hother & _).
    split; [done|]. split.
    + intros l Hl. apply Hother. congruence.
    + intros l [= <-]. apply forEach_key_filter.
  - by repeat split.
Qed.

Lemma getAndReset_obj_other (this : StorageItem.t) (h : Heap) (p l : loc) :
  StorageItem.attributes this ≠ Some l →
  obj (StorageItem.getAndReset this h p).1.2 l = obj h l.
Proof.
  intros Hl. destruct (getAndReset_store this h p) as (_ & Hother & _).
  unfold obj. by rewrite Hother.
Qed.

(** Filtering what is filtered, by the point attributes as they are after
    the first pass, deletes nothing more. *)
Lemma filtered_again (this : StorageItem.t) (h : Heap) (p cur : loc) :
  StorageItem.attributes this = Some cur →
  filtered (obj (StorageItem.getAndReset this h p).1.2 p)
    (obj (StorageItem.getAndReset this h p).1.2 cur)
  = obj (StorageItem.getAndReset this h p).1.2 cur.
Proof.
  intros Hcur. destruct (getAndReset_store this h p) as (_ & _ & Hobj).
  rewrite (Hobj cur Hcur). apply map_eq. intros key.
  apply option_eq. intros v. rewrite filtered_lookup_Some.
  split; [by intros [? _]|]. intros Hv. split; [done|].
  apply filtered_lookup_Some in Hv as [Hv Hi].
  destruct (decide (p = cur)) as [->|Hne].
  - rewrite (Hobj cur Hcur). unfold implied in *.
    rewrite Hv in Hi.
    destruct (filtered (obj h cur) (obj h cur) !! key) as [pv|] eqn:Hpv;
      [|done].
    apply filtered_lookup_Some in Hpv as [Hpv _]. congruence.
  - rewrite getAndReset_obj_other by congruence. done.
Qed.

(** The store after [getAndReset], without the closed form. *)
Lemma getAndReset_deletes (this : StorageItem.t) (h : Heap) (p : loc) :
  dom (StorageItem.getAndReset this h p).1.2 = dom h
  ∧ (∀ l, StorageItem.attributes this ≠ Some l →
          (StorageItem.getAndReset this h p).1.2 !! l = h !! l)
  ∧ (∀ l, obj (StorageItem.getAndReset this h p).1.2 l ⊆ obj h l).
Proof.
  destruct (getAndReset_store this h p) as (Hdom & Hother & Hobj).
  split; [done|]. split; [done|]. intros l.
  destruct (decide (StorageItem.attributes this = Some l)) as [Hl|Hl].
  - rewrite (Hobj l Hl). apply filtered_subseteq.
  - unfold obj. by rewrite (Hother l Hl).
Qed.

(** X1. Reading a slot a second time, over any store and with any point
    attributes, returns nothing and changes neither the slot nor the
    store: an exemplar is handed out once. *)
Theorem getAndReset_once (this : StorageItem.t) (h : Heap) (p : loc)
    (h2 : Heap) (p2 : loc) :
  StorageItem.getAndReset (StorageItem.getAndReset this h p).1.1 h2 p2
  = ((StorageItem.getAndReset this h p).1.1, h2, None).
Proof. apply getAndReset_empty, getAndReset_attributes. Qed.

(** X2. [getAndReset] only deletes, and only from the object the slot
    holds: the store keeps its objects, every other object is untouched,
    and no object gains an entry or gets a value changed. *)
Theorem getAndReset_only_deletes (this : StorageItem.t) (h : Heap) (p : loc) :
  dom (StorageItem.getAndReset this h p).1.2 = dom h
  ∧ (∀ l, StorageItem.attributes this ≠ Some l →
          (StorageItem.getAndReset this h p).1.2 !! l = h !! l)
  ∧ (∀ l, obj (StorageItem.getAndReset this h p).1.2 l ⊆ obj h l).
Proof. apply getAndReset_deletes. Qed.

(** X3. Filtering is idempotent: reading a slot that holds the same object
    again, with the same point attributes, leaves the store exactly as the
    first read left it. This also holds when the point attributes are the
    slot's own object. *)
Theorem getAndReset_filter_idempotent
    (this : StorageItem.t) (h : Heap) (p : loc) :
  (StorageItem.getAndReset this
     (StorageItem.getAndReset this h p).1.2 p).1.2
  = (StorageItem.getAndReset this h p).1.2.
Proof.
  set (h1 := (StorageItem.getAndReset this h p).1.2).
  destruct (getAndReset_store this h1 p) as (Hdom & Hother & Hobj).
  apply heap_ext; [done|]. intros l.
  destruct (decide (StorageItem.attributes this = Some l)) as [Hl|Hl].
  - rewrite (Hobj l Hl). by apply filtered_again.
  - unfold obj. by rewrite (Hother l Hl).
Qed.

Lemma strict_equals_refl (v : AttributeValue) :
  (∀ x, v = ANumber x → PrimFloat.eqb x x = true) → strict_equals v v = true.
Proof.
  intros Hnum. destruct v as [|s|x|b|r]; simpl.
  - done.
  - by apply bool_decide_eq_true_2.
  - by apply Hnum.
  - by destruct b.
  - by apply bool_decide_eq_true_2.
Qed.

(** X4. When the point attributes are the very object the slot holds,
    [getAndReset] deletes every entry but those whose value is not [===]
    to itself; with no [NaN] among the values, the object ends up empty. *)
Theorem getAndReset_own_attributes
    (this : StorageItem.t) (h : Heap) (p : loc) :
  StorageItem.attributes this = Some p →
  obj (StorageItem.getAndReset this h p).1.2 p
    = filter (λ kv, strict_equals kv.2 kv.2 = false) (obj h p)
  ∧ ((∀ key x, obj h p !! key = Some (ANumber x) → PrimFloat.eqb x x = true)
     → obj (StorageItem.getAndReset this h p).1.2 p = ∅).
Proof.
  intros Hp. destruct (getAndReset_store this h p) as (_ & _ & Hobj).
  rewrite (Hobj p Hp).
  assert (filtered (obj h p) (obj h p)
          = filter (λ kv, strict_equals kv.2 kv.2 = false) (obj h p)) as Heq.
  { apply map_eq. intros key. apply option_eq. intros v.
    rewrite filtered_lookup_Some, map_lookup_filter_Some. simpl.
    unfold implied. split; intros [Hv Hi]; (split; [done|]).
    - by rewrite Hv in Hi.
    - by rewrite Hv. }
  split; [done|]. intros Hnum. rewrite Heq.
  apply map_empty. intros key. apply map_lookup_filter_None. right.
  intros v Hv. simpl. rewrite strict_equals_refl; [done|].
  intros x ->. by apply (Hnum key).
Qed.

Lemma getAndReset_own_attributes_witness :
  obj (StorageItem.getAndReset (stored second_measurement)
         scenario_store 3%nat).1.2 3%nat
    = filter (λ kv, strict_equals kv.2 kv.2 = false) (obj scenario_store 3%nat)
  ∧ ((∀ key x, obj scenario_store 3%nat !! key = Some (ANumber x)
               → PrimFloat.eqb x x = true)
     → obj (StorageItem.getAndReset (stored second_measurement)
              scenario_store 3%nat).1.2 3%nat = ∅).
Proof.
  apply (getAndReset_own_attributes (stored second_measurement)
           scenario_store 3%nat).
  reflexivity.
Defined.

(** A [NaN] survives the deletion by the object itself. *)
Example getAndReset_own_attributes_nan :
  let h : Heap := {[ 1%nat := {[ "a" := ANumber 1; "n" := ANumber nan ]} ]} in
  obj (StorageItem.getAndReset
         (StorageItem.offerMeasurement StorageItem.new 5 T1 1%nat no_span)
         h 1%nat).1.2 1%nat
  = {[ "n" := ANumber nan ]}.
Proof. by vm_compute. Qed.

Lemma filtered_filtered (point attrs : Attributes) :
  filtered point (filtered point attrs) = filtered point attrs.
Proof.
  apply map_eq. intros key. apply option_eq. intros v.
  rewrite !filtered_lookup_Some.
  split; [by intros [[? ?] _]|by intros [? ?]].
Qed.

Lemma attribute_refs_cons (item : StorageItem.t) (items : list StorageItem.t) :
  attribute_refs (item :: items) =
  match StorageItem.attributes item with
  | Some a => a :: attribute_refs items
  | None => attribute_refs items
  end.
Proof. done. Qed.

Section CollectStore.
Context {Fields : Type} `{!Strategy Fields}.
Implicit Types (r : Reservoir.t Fields) (h : Heap) (p : loc)
  (items : list StorageItem.t).

Lemma forEach_item_store items : ∀ h p,
  dom (forEach_item items h p).1.2 = dom h
  ∧ (∀ l, l ∉ attribute_refs items → (forEach_item items h p).1.2 !! l = h !! l)
  ∧ (∀ l, obj (forEach_item items h p).1.2 l ⊆ obj h l).
Proof.
  induction items as [|item items IH]; intros h p; [done|].
  rewrite attribute_refs_cons. cbn [forEach_item].
  destruct (getAndReset_deletes item h p) as (Hdom & Hother & Hsub).
  destruct (StorageItem.getAndReset item h p) as [[item' h1] res].
  simpl in Hdom, Hother, Hsub.
  destruct (IH h1 p) as (Hdom' & Hother' & Hsub').
  destruct (forEach_item items h1 p) as [[rest' h2] retVal]. simpl in *.
  split; [congruence|]. split.
  - intros l Hl.
    destruct (StorageItem.attributes item) as [a|] eqn:E.
    + apply not_elem_of_cons in Hl as [Hne Hl].
      rewrite Hother' by done. apply Hother. congruence.
    + rewrite Hother' by done. by apply Hother.
  - intros l. etrans; [apply Hsub'|apply Hsub].
Qed.

Lemma forEach_item_filters items : ∀ h p,
  p ∉ attribute_refs items →
  ∀ l, obj (forEach_item items h p).1.2 l =
       if bool_decide (l ∈ attribute_refs items)
       then filtered (obj h p) (obj h l) else obj h l.
Proof.
  induction items as [|item items IH]; intros h p Hp l; [done|].
  rewrite attribute_refs_cons in Hp. rewrite attribute_refs_cons.
  cbn [forEach_item].
  destruct (getAndReset_store item h p) as (_ & _ & Hobj).
  pose proof (getAndReset_obj_other item h p) as Hother.
  destruct (StorageItem.getAndReset item h p) as [[item' h1] res].
  simpl in Hobj, Hother.
  assert ((p ∉ attribute_refs items)
          ∧ StorageItem.attributes item ≠ Some p)
    as [Hp' Hitem].
  { destruct (StorageItem.attributes item) as [a|]; [|done].
    apply not_elem_of_cons in Hp as [? ?]. split; [done|congruence]. }
  specialize (IH h1 p Hp' l).
  destruct (forEach_item items h1 p) as [[rest' h2] retVal]. simpl in *.
  rewrite IH, (Hother p Hitem).
  destruct (StorageItem.attributes item) as [cur|] eqn:E.
  - destruct (decide (l = cur)) as [->|Hne].
    + rewrite (Hobj cur eq_refl), filtered_filtered.
      rewrite (bool_decide_eq_true_2 (cur ∈ cur :: attribute_refs items))
        by left.
      by destruct (bool_decide (cur ∈ attribute_refs items)).
    + rewrite (Hother l) by congruence.
      rewrite (bool_decide_ext (l ∈ cur :: attribute_refs items)
                 (l ∈ attribute_refs items)); [done|].
      rewrite elem_of_cons. split; [by intros [?|?]|by right].
  - by rewrite (Hother l).
Qed.

Lemma collectAndReset_store r h p :
  (collectAndReset r h p).1.2
  = (forEach_item (_reservoirStorage r) h p).1.2.
Proof.
  unfold collectAndReset.
  by destruct (forEach_item _ h p) as [[items h'] retVal].
Qed.

(** X5. [collectAndReset] only deletes attributes, and only from the
    objects the occupied slots hold: the store keeps its objects, every
    other object is untouched, and no object gains an entry or gets a value
    changed. The attributes a producer offered are thus edited in place. *)
Theorem collectAndReset_only_deletes r h p :
  dom (collectAndReset r h p).1.2 = dom h
  ∧ (∀ l, l ∉ attribute_refs (_reservoirStorage r) →
          (collectAndReset r h p).1.2 !! l = h !! l)
  ∧ (∀ l, obj (collectAndReset r h p).1.2 l ⊆ obj h l).
Proof. rewrite collectAndReset_store. apply forEach_item_store. Qed.

(** X6. When the point attributes are not the object of an occupied slot,
    [collectAndReset] leaves them as they are and filters the object of
    every occupied slot by them, also when slots share an object; each
    returned exemplar carries such a filtered object. *)
Theorem collectAndReset_filters r h p :
  p ∉ attribute_refs (_reservoirStorage r) →
  obj (collectAndReset r h p).1.2 p = obj h p
  ∧ (∀ l, l ∈ attribute_refs (_reservoirStorage r) →
          obj (collectAndReset r h p).1.2 l = filtered (obj h p) (obj h l))
  ∧ (∀ e, e ∈ (collectAndReset r h p).2 →
          obj (collectAndReset r h p).1.2 (filteredAttributes e)
            = filtered (obj h p) (obj h (filteredAttributes e))).
Proof.
  intros Hp. rewrite collectAndReset_store.
  pose proof (forEach_item_filters (_reservoirStorage r) h p Hp) as Hf.
  split; [by rewrite Hf, bool_decide_eq_false_2|].
  assert (∀ l, l ∈ attribute_refs (_reservoirStorage r) →
               obj (forEach_item (_reservoirStorage r) h p).1.2 l
               = filtered (obj h p) (obj h l)) as Hrefs.
  { intros l Hl. by rewrite Hf, bool_decide_eq_true_2. }
  split; [done|]. intros e He. apply Hrefs.
  rewrite collectAndReset_result in He.
  apply list_elem_of_omap in He as (item & Hitem & Hpend).
  apply list_elem_of_omap. exists item. split; [done|].
  unfold pending in Hpend.
  destruct (StorageItem.attributes item); [|done]. by injection Hpend as <-.
Qed.

End CollectStore.

Lemma collectAndReset_filters_witness :
  obj (collectAndReset scenario_offered scenario_store 1%nat).1.2 1%nat
    = obj scenario_store 1%nat
  ∧ (∀ l, l ∈ attribute_refs (_reservoirStorage scenario_offered) →
          obj (collectAndReset scenario_offered scenario_store 1%nat).1.2 l
            = filtered (obj scenario_store 1%nat) (obj scenario_store l))
  ∧ (∀ e, e ∈ (collectAndReset scenario_offered scenario_store 1%nat).2 →
          obj (collectAndReset scenario_offered scenario_store 1%nat).1.2
            (filteredAttributes e)
            = filtered (obj scenario_store 1%nat)
                (obj scenario_store (filteredAttributes e))).
Proof.
  apply (collectAndReset_filters scenario_offered scenario_store 1%nat).
  apply (bool_decide_unpack _). vm_compute. exact I.
Defined.

(** Without the hypothesis of X6: the point attributes are the object of
    slot 0, the read of slot 0 empties them, and slot 1 is then filtered
    by nothing. *)
Example point_attributes_of_first_slot :
  (collectAndReset scenario_offered scenario_store 2%nat).1.2
  = {[ 1%nat := {[ "a" := ANumber 1 ]};
       2%nat := ∅;
       3%nat := {[ "a" := ANumber 1; "b" := ANumber 2 ]};
       4%nat := ∅ ]}.
Proof. by vm_compute. Qed.

Lemma length_omap_pending_insert (items : list StorageItem.t) (i : nat)
    (item : StorageItem.t) :
  (length (omap pending (<[i := item]> items))
   ≤ S (length (omap pending items)))%nat.
Proof.
  revert i. induction items as [|x items IH]; intros i; [simpl; lia|].
  destruct i as [|i]; csimpl.
  - destruct (pending item), (pending x); simpl; lia.
  - specialize (IH i). destruct (pending x); simpl; lia.
Qed.

Section OfferSequences.
Context {Fields : Type} `{!Strategy Fields}.
Implicit Types (r : Reservoir.t Fields) (h : Heap) (p : loc).

Lemma offer_pending_length r m :
  (length (omap pending (_reservoirStorage (offer r m).1))
   ≤ S (length (omap pending (_reservoirStorage r))))%nat.
Proof.
  unfold offer.
  destruct (offerMeasurement_cases r (m_store m) (m_value m) (m_timestamp m)
              (m_attributes m) (m_ctx m))
    as (_ & _ & [(_ & -> & _) | [(_ & _ & -> & _) | (item & _ & _ & -> & _)]]);
    [lia | lia | apply length_omap_pending_insert].
Qed.

Lemma offer_all_pending_length r ms :
  (length (omap pending (_reservoirStorage (offer_all r ms)))
   ≤ length (omap pending (_reservoirStorage r)) + length ms)%nat.
Proof.
  revert r. induction ms as [|m ms IH]; intros r.
  - simpl. lia.
  - unfold offer_all in *. simpl. specialize (IH (offer r m).1).
    pose proof (offer_pending_length r m). lia.
Qed.

Lemma omap_pending_drained (items : list StorageItem.t) :
  omap pending (drained <$> items) = [].
Proof.
  induction items as [|item items IH]; [done|]. csimpl. rewrite IH.
  unfold drained, occupied, pending.
  by destruct (StorageItem.attributes item) eqn:E; simpl; rewrite ?E.
Qed.

(** X7. A collect returns at most as many exemplars as there were slots
    occupied before plus offers made since; after a collect, the next
    collect returns at most as many exemplars as there were offers in
    between. *)
Theorem collectAndReset_at_most_offers r (ms : list Measurement) h p h0 p0 :
  (length (collectAndReset (offer_all r ms) h p).2
   ≤ length (collectAndReset r h p).2 + length ms)%nat
  ∧ (length (collectAndReset
               (offer_all (collectAndReset r h0 p0).1.1 ms) h p).2
     ≤ length ms)%nat.
Proof.
  rewrite !collectAndReset_result.
  split; [apply offer_all_pending_length|].
  pose proof (offer_all_pending_length (collectAndReset r h0 p0).1.1 ms) as Hle.
  by rewrite collectAndReset_storage, omap_pending_drained in Hle.
Qed.

(** X8. An offer, whether it is stored, dropped or throws, keeps the number
    of slots and the size and writes no slot but the one of its index; it
    returns normally exactly when the index is [-1] or the index of a slot,
    and throws a [TypeError] otherwise. *)
Theorem offerMeasurement_frame r h v ts a ctx :
  length (_reservoirStorage (offerMeasurement r h v ts a ctx).1)
    = length (_reservoirStorage r)
  ∧ maxSize (offerMeasurement r h v ts a ctx).1 = maxSize r
  ∧ (∀ i : nat,
       Z.of_nat i ≠ (reservoirIndexFor (sub r) h v ts a ctx).1 →
       _reservoirStorage (offerMeasurement r h v ts a ctx).1 !! i
         = _reservoirStorage r !! i)
  ∧ ((offerMeasurement r h v ts a ctx).2 = Normal () ↔
     (reservoirIndexFor (sub r) h v ts a ctx).1 = -1
     ∨ 0 ≤ (reservoirIndexFor (sub r) h v ts a ctx).1
         < Z.of_nat (length (_reservoirStorage r)))
  ∧ ((offerMeasurement r h v ts a ctx).2 = Throw TypeError ↔
     (reservoirIndexFor (sub r) h v ts a ctx).1 ≠ -1
     ∧ ¬ (0 ≤ (reservoirIndexFor (sub r) h v ts a ctx).1
            < Z.of_nat (length (_reservoirStorage r)))).
Proof.
  unfold maxSize.
  destruct (offerMeasurement_cases r h v ts a ctx)
    as (Hsz & _ & [(Hi & Hst & Hc) | [(Hi & Hout & Hst & Hc)
                                     | (item & Hi & _ & Hst & Hc)]]);
    rewrite Hst, Hc; (split; [by rewrite ?length_insert|]);
    (split; [done|]).
  - split; [done|]. split; [by split; [left|]|]. split; [done|].
    by intros [? _].
  - split; [done|]. split; [|done]. split; [done|]. intros [?|?]; done.
  - split.
    { intros i Hne. apply list_lookup_insert_ne. lia. }
    split; [by split; [right|]|]. split; [done|]. by intros [_ ?].
Qed.

(** X9. The constructor succeeds exactly for a size that is an array
    length: the reservoir then reports that size, has that many slots, all
    empty, and a collect returns nothing, leaves the store alone and only
    runs the [reset] hook; for any other size it throws a [RangeError]. *)
Theorem constructor_cases (N : Z) (fields : Fields) :
  (0 ≤ N ≤ MAX_ARRAY_LENGTH →
   ∃ r, constructor N fields = Normal r
        ∧ maxSize r = N
        ∧ _reservoirStorage r = replicate (Z.to_nat N) StorageItem.new
        ∧ sub r = fields
        ∧ ∀ h p, collectAndReset r h p
                 = (Build_t Fields (_reservoirStorage r) N (reset fields),
                    h, []))
  ∧ (¬ (0 ≤ N ≤ MAX_ARRAY_LENGTH) → constructor N fields = Throw RangeError).
Proof.
  unfold constructor. split; intros HN.
  - rewrite bool_decide_eq_true_2 by done. eexists. split; [reflexivity|].
    simpl. split; [done|]. split; [done|]. split; [done|].
    intros h p. unfold collectAndReset. simpl.
    assert (∀ n, forEach_item (replicate n StorageItem.new) h p
                 = (replicate n StorageItem.new, h, [])) as Hn.
    { induction n as [|n IH]; [done|]. simpl. by rewrite IH. }
    by rewrite Hn.
  - by rewrite bool_decide_eq_false_2.
Qed.

(** X10. The capacity never changes: after any sequence of offers and
    collects on a reservoir constructed with size [N], [maxSize] is [N] and
    there are exactly [N] slots. *)
Theorem capacity_fixed (N : Z) r :
  reachable N r →
  maxSize r = N
  ∧ Z.of_nat (length (_reservoirStorage r)) = N
  ∧ 0 ≤ N ≤ MAX_ARRAY_LENGTH.
Proof.
  intros Hr. destruct (reachable_inv N r Hr) as (HN & Hs & Hl & _).
  split; [done|]. split; [lia|done].
Qed.

End OfferSequences.

Lemma constructor_cases_witness :
  ∃ r : Reservoir.t (list Z),
    constructor 2 [0; 1] = Normal r
    ∧ maxSize r = 2
    ∧ _reservoirStorage r = replicate (Z.to_nat 2) StorageItem.new
    ∧ sub r = [0; 1]
    ∧ ∀ h p, collectAndReset r h p
             = (Build_t (list Z) (_reservoirStorage r) 2 (reset [0; 1]),
                h, []).
Proof.
  apply (proj1 (constructor_cases 2 [0; 1])). unfold MAX_ARRAY_LENGTH. lia.
Defined.

Lemma capacity_fixed_witness :
  maxSize scenario_offered = 2
  ∧ Z.of_nat (length (_reservoirStorage scenario_offered)) = 2
  ∧ 0 ≤ 2 ≤ MAX_ARRAY_LENGTH.
Proof. exact (capacity_fixed 2 scenario_offered scenario_reachable). Defined.

(** * Further properties of the client utilities *)

(** ** getMethodsToWrap *)

Section MethodsToWrapProperties.
Context {IgnoreMatchers : Type}.
Variable ignored : string → IgnoreMatchers → bool.
Implicit Types (ignore : IgnoreMatchers) (prototype : gset string)
  (methods : list (string * MethodDefinition)) (name x : string).

Lemma wrap_entry_app ignore prototype (methodList : list string) entry :
  wrap_entry ignored ignore prototype methodList entry
  = methodList ++ names_of_entry ignored ignore prototype entry.
Proof.
  unfold names_of_entry, wrap_entry. destruct entry as [name definition].
  destruct (ignored name ignore); simpl; [by rewrite app_nil_r|].
  destruct (adds_original prototype name definition); simpl;
    by rewrite <- ?(assoc_L (++)).
Qed.

Lemma foldl_wrap_entry ignore prototype methods (methodList : list string) :
  foldl (wrap_entry ignored ignore prototype) methodList methods
  = methodList ++ (methods ≫= names_of_entry ignored ignore prototype).
Proof.
  revert methodList. induction methods as [|entry methods IH];
    intros methodList; csimpl.
  - by rewrite app_nil_r.
  - by rewrite IH, wrap_entry_app, <- (assoc_L (++)).
Qed.

Lemma getMethodsToWrap_bind ignore prototype methods :
  getMethodsToWrap ignored ignore prototype methods
  = methods ≫= names_of_entry ignored ignore prototype.
Proof. unfold getMethodsToWrap. by rewrite foldl_wrap_entry. Qed.

Lemma adds_original_Some prototype name definition x :
  adds_original prototype name definition = Some x ↔
  originalName definition = Some x
  ∧ x ≠ ""%string ∧ x ∈ prototype ∧ name ≠ x.
Proof.
  unfold adds_original. destruct (originalName definition) as [o|];
    [|split; [done|by intros [? _]]].
  repeat case_bool_decide; simpl;
    (split; [intros [= <-]|intros ([= <-] & ? & ? & ?)]); done.
Qed.

Lemma elem_of_names_of_entry ignore prototype name definition x :
  x ∈ names_of_entry ignored ignore prototype (name, definition) ↔
  ignored name ignore = false
  ∧ (x = name ∨ adds_original prototype name definition = Some x).
Proof.
  unfold names_of_entry, wrap_entry.
  destruct (ignored name ignore); simpl.
  - split; [by intros ?%elem_of_nil|by intros [? _]].
  - destruct (adds_original prototype name definition) as [o|]; simpl.
    + rewrite elem_of_cons, list_elem_of_singleton. split.
      * intros [Hx|Hx]; subst; (split; [done|]); [by left|by right].
      * intros [_ [Hx|Hx]]; [left|right]; congruence.
    + rewrite list_elem_of_singleton. split.
      * intros ->. split; [done|by left].
      * by intros [_ [Hx|Hx]].
Qed.

Lemma names_of_entry_length ignore prototype entry :
  (length (names_of_entry ignored ignore prototype entry) ≤ 2)%nat.
Proof.
  unfold names_of_entry, wrap_entry. destruct entry as [name definition].
  destruct (ignored name ignore); simpl; [lia|].
  destruct (adds_original prototype name definition); simpl; lia.
Qed.

(** X11. A name is in the list of methods to wrap exactly when it is the
    name of a method that is not ignored, or the [originalName] of such a
    method that is not empty, is an own property of the client's prototype
    and differs from the method's name. An ignored method contributes
    neither of its names. *)
Theorem getMethodsToWrap_elem_of ignore prototype methods x :
  x ∈ getMethodsToWrap ignored ignore prototype methods ↔
  ∃ name definition,
    (name, definition) ∈ methods
    ∧ ignored name ignore = false
    ∧ (x = name
       ∨ (originalName definition = Some x
          ∧ x ≠ ""%string ∧ x ∈ prototype ∧ name ≠ x)).
Proof.
  rewrite getMethodsToWrap_bind, list_elem_of_bind. split.
  - intros ([name definition] & Hx & Hin).
    apply elem_of_names_of_entry in Hx as [Hi Hx].
    exists name, definition. rewrite <- adds_original_Some. done.
  - intros (name & definition & Hin & Hi & Hx).
    exists (name, definition). split; [|done].
    apply elem_of_names_of_entry. by rewrite adds_original_Some.
Qed.

(** X12. The list keeps the order of the methods: the names of the methods
    that are not ignored appear in it in their order, each original name
    right after its method, and the list has at most two names for each
    method. *)
Theorem getMethodsToWrap_order ignore prototype methods :
  filter (λ name, ignored name ignore = false) methods.*1
    `sublist_of` getMethodsToWrap ignored ignore prototype methods
  ∧ (length (getMethodsToWrap ignored ignore prototype methods)
     ≤ 2 * length methods)%nat
  ∧ ∀ before name definition after,
      methods = before ++ (name, definition) :: after →
      getMethodsToWrap ignored ignore prototype methods
      = getMethodsToWrap ignored ignore prototype before
        ++ (if ignored name ignore then []
            else name :: match adds_original prototype name definition with
                         | Some original => [original]
                         | None => []
                         end)
        ++ getMethodsToWrap ignored ignore prototype after.
Proof.
  split; [|split].
  - rewrite getMethodsToWrap_bind.
    induction methods as [|[name definition] methods IH]; csimpl; [done|].
    unfold names_of_entry at 1, wrap_entry.
    destruct (ignored name ignore) eqn:E; simpl.
    + by rewrite filter_cons_False by (simpl; congruence).
    + rewrite filter_cons_True by done.
      destruct (adds_original prototype name definition); simpl.
      * by apply sublist_skip, sublist_cons.
      * by apply sublist_skip.
  - rewrite getMethodsToWrap_bind.
    induction methods as [|[name definition] methods IH]; csimpl; [lia|].
    rewrite length_app.
    pose proof (names_of_entry_length ignore prototype (name, definition)).
    simpl in *. lia.
  - intros before name definition after ->.
    rewrite !getMethodsToWrap_bind, bind_app. csimpl. f_equal. f_equal.
    unfold names_of_entry, wrap_entry.
    destruct (ignored name ignore); simpl; [done|].
    by destruct (adds_original prototype name definition).
Qed.

(** X13. When the methods have distinct names and distinct original names,
    and no original name is the name of another method, no name is listed
    twice: a method whose two casings coincide is listed once. *)
Theorem getMethodsToWrap_NoDup ignore prototype methods :
  NoDup methods.*1 →
  (∀ n1 d1 n2 d2 o,
     (n1, d1) ∈ methods → (n2, d2) ∈ methods →
     originalName d1 = Some o → originalName d2 = Some o → n1 = n2) →
  (∀ n1 d1 n2 d2,
     (n1, d1) ∈ methods → (n2, d2) ∈ methods →
     originalName d1 = Some n2 → n1 = n2) →
  NoDup (getMethodsToWrap ignored ignore prototype methods).
Proof.
  intros Hnames Horig Hcross. rewrite getMethodsToWrap_bind.
  assert (∀ n d1 d2, (n, d1) ∈ methods → (n, d2) ∈ methods → d1 = d2)
    as Hfun.
  { clear Horig Hcross. induction methods as [|[n0 d0] methods IH];
      intros n d1 d2 H1 H2; [by apply elem_of_nil in H1|].
    apply NoDup_cons in Hnames as [Hn0 Hnames].
    apply elem_of_cons in H1 as [E1|H1];
      apply elem_of_cons in H2 as [E2|H2]; simplify_eq; try done.
    - destruct Hn0. apply list_elem_of_fmap. by exists (n0, d2).
    - destruct Hn0. apply list_elem_of_fmap. by exists (n0, d1).
    - by apply (IH Hnames n). }
  apply NoDup_bind.
  - intros [n1 d1] [n2 d2] y H1 H2 Hy1 Hy2.
    apply elem_of_names_of_entry in Hy1 as [_ Hy1].
    apply elem_of_names_of_entry in Hy2 as [_ Hy2].
    rewrite adds_original_Some in Hy1, Hy2.
    assert (n1 = n2) as ->.
    { destruct Hy1 as [->|(Ho1 & _ & _ & Hne1)];
        destruct Hy2 as [->|(Ho2 & _ & _ & Hne2)].
      - done.
      - destruct Hne2. by apply (Hcross n2 d2 n1 d1).
      - destruct Hne1. by apply (Hcross n1 d1 n2 d2).
      - by apply (Horig n1 d1 n2 d2 y). }
    f_equal. by apply (Hfun n2).
  - intros [name definition] _. unfold names_of_entry, wrap_entry.
    destruct (ignored name ignore); simpl; [constructor|].
    destruct (adds_original prototype name definition) as [o|] eqn:Ho; simpl.
    + apply adds_original_Some in Ho as (_ & _ & _ & Hne).
      apply NoDup_cons. split; [|apply NoDup_singleton].
      by intros ?%list_elem_of_singleton.
    + apply NoDup_singleton.
  - eapply NoDup_fmap_1. exact Hnames.
Qed.

End MethodsToWrapProperties.

Example getMethodsToWrap_example :
  getMethodsToWrap ignored_by_name ["hidden"%string] example_prototype
    example_methods
  = ["unaryMethod"; "UnaryMethod"; "echo"; "plain"]%string.
Proof. by vm_compute. Qed.

Lemma getMethodsToWrap_NoDup_witness :
  NoDup (getMethodsToWrap ignored_by_name ["hidden"%string] example_prototype
           example_methods).
Proof.
  apply (getMethodsToWrap_NoDup ignored_by_name ["hidden"%string]
           example_prototype example_methods).
  - apply (bool_decide_unpack _). vm_compute. exact I.
  - unfold example_methods. intros n1 d1 n2 d2 o H1 H2 Ho1 Ho2.
    repeat (apply elem_of_cons in H1 as [[= -> ->]|H1]);
      try (by apply elem_of_nil in H1);
      repeat (apply elem_of_cons in H2 as [[= -> ->]|H2]);
      try (by apply elem_of_nil in H2);
      simpl in *; congruence.
  - unfold example_methods. intros n1 d1 n2 d2 H1 H2 Ho1.
    repeat (apply elem_of_cons in H1 as [[= -> ->]|H1]);
      try (by apply elem_of_nil in H1);
      repeat (apply elem_of_cons in H2 as [[= -> ->]|H2]);
      try (by apply elem_of_nil in H2);
      simpl in *; congruence.
Defined.

(** ** The patched callback *)

Lemma span_calls_app (t1 t2 : list Action) :
  span_calls (t1 ++ t2) = span_calls t1 ++ span_calls t2.
Proof. apply omap_app. Qed.

Lemma callbacks_app (t1 t2 : list Action) :
  callbacks (t1 ++ t2) = callbacks t1 ++ callbacks t2.
Proof. apply omap_app. Qed.

Section PatchedCallbackProperties.
Context `{!Utils} `{!StatusCode}.

(** The span calls of one run: some that do not end the span, then
    [end()]; the callback is called last. *)
Lemma wrappedFn_shape (err : option ServiceError) (res : JsValue) :
  ∃ calls,
    wrappedFn err res
    = (on_span <$> calls) ++ [on_span span_end; callback err res]
    ∧ ends calls = 0%nat.
Proof.
  unfold wrappedFn. destruct err as [e|].
  - case_bool_decide; simpl.
    + by eexists [_; _; _].
    + by eexists [_].
  - by eexists [_; _].
Qed.

Lemma span_calls_on_span (calls : list SpanCall) :
  span_calls (on_span <$> calls) = calls
  ∧ callbacks (on_span <$> calls) = [].
Proof.
  unfold span_calls, callbacks.
  induction calls as [|m calls [IH1 IH2]]; [done|]. csimpl.
  by rewrite IH1, IH2.
Qed.

(** X14. Whatever the outcome it is called with, the patched callback ends
    the span exactly once, after everything else it sets on the span, and
    then calls the callback it wraps, once, with the same error and
    response. It has no guard: called twice, it ends the span twice. *)
Theorem wrappedFn_ends_once (err : option ServiceError) (res : JsValue)
    (err' : option ServiceError) (res' : JsValue) :
  ends (span_calls (wrappedFn err res)) = 1%nat
  ∧ last (span_calls (wrappedFn err res)) = Some span_end
  ∧ callbacks (wrappedFn err res) = [(err, res)]
  ∧ last (wrappedFn err res) = Some (callback err res)
  ∧ ends (span_calls (wrappedFn err res ++ wrappedFn err' res')) = 2%nat.
Proof.
  destruct (wrappedFn_shape err res) as (calls & -> & Hends).
  destruct (wrappedFn_shape err' res') as (calls' & -> & Hends').
  rewrite !span_calls_app, !callbacks_app.
  destruct (span_calls_on_span calls) as [-> ->].
  destruct (span_calls_on_span calls') as [-> _].
  change (span_calls [on_span span_end; callback err res]) with [span_end].
  change (span_calls [on_span span_end; callback err' res'])
    with [span_end].
  rewrite !ends_app, Hends, Hends'. rewrite last_snoc.
  split; [done|]. split; [done|]. split; [done|]. split; [|done].
  change [on_span span_end; callback err res]
    with ([on_span span_end] ++ [callback err res]).
  by rewrite (assoc_L (++)), last_snoc.
Qed.

(** What the patched callback sets on the span: for an error with a
    non-zero code, the status and the status code attribute, then the error
    name and message; for an error whose code is 0, the error name and
    message only, and no status; without an error, the unset status and the
    OK status code. *)
Theorem wrappedFn_span_calls (e : ServiceError) (res : JsValue) :
  (err_code e ≠ 0 →
   span_calls (wrappedFn (Some e) res)
   = [setStatus (_grpcStatusCodeToSpanStatus (err_code e));
      setAttribute RPC_GRPC_STATUS_CODE (SNumber (err_code e));
      setAttributes [(GRPC_ERROR_NAME, SString (err_name e));
                     (GRPC_ERROR_MESSAGE, SString (err_message e))];
      span_end])
  ∧ (err_code e = 0 →
     span_calls (wrappedFn (Some e) res)
     = [setAttributes [(GRPC_ERROR_NAME, SString (err_name e));
                       (GRPC_ERROR_MESSAGE, SString (err_message e))];
        span_end])
  ∧ span_calls (wrappedFn None res)
    = [setStatus {| code := UNSET; message := None |};
       setAttribute RPC_GRPC_STATUS_CODE (SNumber GRPC_STATUS_CODE_OK);
       span_end].
Proof.
  unfold wrappedFn. split; [|split; [|done]]; intros He.
  - by rewrite bool_decide_eq_true_2.
  - by rewrite bool_decide_eq_false_2 by (intros ?; done).
Qed.

End PatchedCallbackProperties.

Lemma wrappedFn_span_calls_witness :
  span_calls
    (wrappedFn (H := example_utils) (H0 := example_status_code)
       (Some an_error) JNull)
  = [setStatus (@_grpcStatusCodeToSpanStatus example_utils
                  (err_code an_error));
     setAttribute (@RPC_GRPC_STATUS_CODE example_utils)
       (SNumber (err_code an_error));
     setAttributes [(@GRPC_ERROR_NAME example_utils,
                     SString (err_name an_error));
                    (@GRPC_ERROR_MESSAGE example_utils,
                     SString (err_message an_error))];
     span_end].
Proof.
  apply (proj1 (@wrappedFn_span_calls example_utils example_status_code
                  an_error JNull)).
  simpl. lia.
Defined.

(** ** Patching the callback argument *)

Lemma findIndex_cases {A} (pred : A → bool) (a : list A) :
  (findIndex pred a = -1 ∧ Forall (λ x, pred x = false) a)
  ∨ (∃ (k : nat) (x : A),
       findIndex pred a = Z.of_nat k
       ∧ a !! k = Some x
       ∧ pred x = true
       ∧ ∀ j y, (j < k)%nat → a !! j = Some y → pred y = false).
Proof.
  induction a as [|x a IH].
  - left. by split.
  - destruct (pred x) eqn:Hx.
    + right. exists 0%nat, x. unfold findIndex. simpl. rewrite Hx.
      repeat split; try done. intros j y Hj. lia.
    + destruct IH as [[Hnone Hall]|(k & y & Hk & Hl & Hy & Hbefore)].
      * left. split; [|by constructor].
        apply findIndex_from_none. by constructor.
      * right. exists (S k), y. split.
        { unfold findIndex.
          rewrite (findIndex_from_first pred (x :: a) 0 (S k) y); try done.
          intros [|j] z Hj Hz; simpl in Hz; [by injection Hz as <-|].
          apply (Hbefore j z); [lia|done]. }
        split; [done|]. split; [done|].
        intros [|j] z Hj Hz; simpl in Hz; [by injection Hz as <-|].
        apply (Hbefore j z); [lia|done].
Qed.

(** X15. On a call without a response stream, the first argument that is
    a function is replaced by a function of a new identity that wraps it,
    and nothing else changes; when no argument is a function, or the call
    has a response stream, the arguments are left as they are. The number
    of arguments never changes. *)
Theorem patch_callback_spec (original : GrpcClientFunc) (h : Objects)
    (args : list JsValue) :
  length (patch_callback original h args).1.1 = length args
  ∧ (responseStream original = true →
     patch_callback original h args = (args, h, None))
  ∧ (Forall (λ arg, typeof arg ≠ "function"%string) args →
     patch_callback original h args = (args, h, None))
  ∧ (∀ (k : nat) (f : JsValue),
       responseStream original = false →
       args !! k = Some f →
       typeof f = "function"%string →
       (∀ j y, (j < k)%nat → args !! j = Some y
               → typeof y ≠ "function"%string) →
       ∃ l : loc,
         h !! l = None
         ∧ patch_callback original h args
           = (<[k := JFunction l]> args, <[l := ∅]> h, Some (l, f))
         ∧ (∀ j, j ≠ k →
                 (patch_callback original h args).1.1 !! j = args !! j)).
Proof.
  unfold patch_callback.
  destruct (findIndex_cases
              (λ arg, bool_decide (typeof arg = "function"%string)) args)
    as [[Hnone Hall]|(k & f & Hk & Hl & Hf & Hbefore)].
  - rewrite Hnone. simpl.
    split; [by destruct (responseStream original)|].
    split; [by intros ->|]. split; [by destruct (responseStream original)|].
    intros k f _ Hk Hf _. exfalso.
    rewrite Forall_forall in Hall.
    specialize (Hall f (list_elem_of_lookup_2 _ _ _ Hk)).
    by rewrite bool_decide_eq_true_2 in Hall.
  - rewrite Hk, bool_decide_eq_true_2 by lia. rewrite Nat2Z.id.
    apply bool_decide_eq_true_1 in Hf.
    split; [destruct (responseStream original); simpl;
            [done|by rewrite length_insert]|].
    split; [by intros ->|]. split.
    { intros Hall. exfalso. rewrite Forall_forall in Hall.
      by apply (Hall f (list_elem_of_lookup_2 _ _ _ Hl)). }
    intros k' f' -> Hk' Hf' Hbefore'. simpl.
    assert (k' = k) as ->.
    { destruct (lt_eq_lt_dec k' k) as [[Hlt|Heq]|Hgt]; [|done|].
      - specialize (Hbefore k' f' Hlt Hk').
        by rewrite bool_decide_eq_true_2 in Hbefore.
      - by destruct (Hbefore' k f Hgt Hl). }
    assert (f' = f) as -> by congruence.
    exists (fresh (dom h)). split; [apply not_elem_of_dom, is_fresh|].
    unfold array_get. rewrite bool_decide_eq_true_2 by lia.
    rewrite Nat2Z.id, Hl. split; [done|].
    intros j Hj. simpl. by apply list_lookup_insert_ne.
Qed.

Lemma patch_callback_spec_witness :
  ∃ l : loc,
    call_store !! l = None
    ∧ patch_callback unary call_store call_args
      = (<[1%nat := JFunction l]> call_args, <[l := ∅]> call_store,
         Some (l, JFunction 1))
    ∧ (∀ j, j ≠ 1%nat →
            (patch_callback unary call_store call_args).1.1 !! j
            = call_args !! j).
Proof.
  apply (proj2 (proj2 (proj2 (patch_callback_spec unary call_store call_args)))
           1%nat (JFunction 1)).
  - reflexivity.
  - reflexivity.
  - reflexivity.
  - intros [|j] y Hj Hy; [|lia]. by injection Hy as <-.
Defined.

(** ** The listeners of a call *)

Section ListenerProperties.
Context `{!Utils}.
Implicit Types (c : StreamCall) (e : Event) (calls : list SpanCall).

(** Once the local [spanEnded] is set it stays set, and a listener appends
    calls that do not end the span. *)
Lemma emit_spanEnded c e :
  spanEnded c = true →
  spanEnded (emit c e) = true ∧ ends (span (emit c e)) = ends (span c).
Proof.
  intros Hs.
  destruct e; simpl; unfold on_error, on_status, endSpan;
    destruct (CALL_SPAN_ENDED c); simpl; rewrite ?Hs; simpl;
    rewrite ?ends_app; simpl; (split; [done|lia]).
Qed.

(** X16. The local flag [spanEnded] alone keeps the span from being ended
    again: from any state in which it is set, also one in which the flag
    on the call has been cleared, no sequence of ['error'] and ['status']
    events calls [span.end()]. *)
Theorem spanEnded_guard c (events : list Event) :
  spanEnded c = true →
  ends (span (emit_all c events)) = ends (span c)
  ∧ spanEnded (emit_all c events) = true.
Proof.
  revert c. unfold emit_all.
  induction events as [|e events IH]; intros c Hs; [done|]. simpl.
  destruct (emit_spanEnded c e Hs) as [Hs' He].
  destruct (IH (emit c e) Hs') as [IH1 IH2]. split; [congruence|done].
Qed.

(** X17. The first ['error'] or ['status'] event decides what the span
    records: its status and attributes, then [end()] as the last call on
    the span. Events that follow add nothing, so a status arriving after
    an error does not replace the error. The two flags agree throughout. *)
Theorem first_event_wins calls (events : list Event) :
  (∀ err,
     span (emit_all (registered calls) (error err :: events))
     = calls
       ++ [setStatus
             {| code := _grpcStatusCodeToOpenTelemetryStatusCode (err_code err);
                message := Some (err_message err) |};
           setAttributes
             [(GRPC_ERROR_NAME, SString (err_name err));
              (GRPC_ERROR_MESSAGE, SString (err_message err));
              (RPC_GRPC_STATUS_CODE, SNumber (err_code err))];
           span_end])
  ∧ (∀ s,
       span (emit_all (registered calls) (status s :: events))
       = calls
         ++ [setStatus (_grpcStatusCodeToSpanStatus (status_code s));
             setAttribute RPC_GRPC_STATUS_CODE (SNumber (status_code s));
             span_end])
  ∧ spanEnded (emit_all (registered calls) events)
    = CALL_SPAN_ENDED (emit_all (registered calls) events)
  ∧ (events = [] → emit_all (registered calls) events = registered calls).
Proof.
  assert (∀ e, emit_all (registered calls) (e :: events)
               = emit (registered calls) e) as Hfirst.
  { intros e. unfold emit_all. simpl. apply emit_all_after_end.
    apply emit_first. }
  split; [|split; [|split]].
  - intros err. rewrite Hfirst. simpl. unfold on_error, endSpan. simpl.
    by rewrite <- !(assoc_L (++)).
  - intros s. rewrite Hfirst. simpl. unfold on_status, endSpan. simpl.
    by rewrite <- !(assoc_L (++)).
  - destruct events as [|e events']; [done|].
    assert (emit_all (registered calls) (e :: events')
            = emit (registered calls) e) as ->.
    { unfold emit_all. simpl. apply emit_all_after_end, emit_first. }
    destruct (emit_first calls e) as (-> & -> & _). done.
  - by intros ->.
Qed.

End ListenerProperties.

Lemma spanEnded_guard_witness :
  ends (span (emit_all (H := example_utils)
                {| spanEnded := true; CALL_SPAN_ENDED := false;
                   span := [span_end] |}
                [status {| status_code := 0 |}; error an_error]))
  = ends (span {| spanEnded := true; CALL_SPAN_ENDED := false;
                  span := [span_end] |})
  ∧ spanEnded (emit_all (H := example_utils)
                 {| spanEnded := true; CALL_SPAN_ENDED := false;
                    span := [span_end] |}
                 [status {| status_code := 0 |}; error an_error])
    = true.
Proof.
  apply (@spanEnded_guard example_utils
           {| spanEnded := true; CALL_SPAN_ENDED := false;
              span := [span_end] |}
           [status {| status_code := 0 |}; error an_error]).
  reflexivity.
Defined.

Section CallListenerProperties.
Context `{!Utils} {ResponseMetadata : Type}.
Variable capture : ResponseMetadata → list SpanCall.
Implicit Types (c : StreamCall) (calls : list SpanCall)
  (events : list (@CallEvent ResponseMetadata)).

Lemma emit_call_all_ended c events :
  (∀ md, ends (capture md) = 0%nat) →
  CALL_SPAN_ENDED c = true →
  ends (span (emit_call_all capture c events)) = ends (span c).
Proof.
  intros Hcap. revert c. unfold emit_call_all.
  induction events as [|ev events IH]; intros c Hc; [done|].
  cbn [foldl]. destruct ev as [md|e].
  - rewrite IH by done. simpl. rewrite ends_app, Hcap. lia.
  - change (emit_call capture c (completion e)) with (emit c e).
    rewrite emit_after_end by done. by apply IH.
Qed.

(** X18. With the ['metadata'] listener in play: if capturing response
    metadata does not end the span, then whatever the order of
    ['metadata'], ['error'] and ['status'] events, the span is ended once
    if an ['error'] or ['status'] event arrives, and not at all
    otherwise. *)
Theorem span_ended_once_with_metadata calls events :
  (∀ md, ends (capture md) = 0%nat) →
  ends (span (emit_call_all capture (registered calls) events))
  = (ends calls + (if has_completion events then 1 else 0))%nat.
Proof.
  intros Hcap. revert calls. unfold emit_call_all.
  induction events as [|ev events IH]; intros calls; [simpl; lia|].
  cbn [foldl has_completion existsb]. destruct ev as [md|e].
  - change (emit_call capture (registered calls) (metadata md))
      with (registered (calls ++ capture md)).
    rewrite IH, ends_app, Hcap. simpl. unfold has_completion. lia.
  - change (emit_call capture (registered calls) (completion e))
      with (emit (registered calls) e). simpl.
    destruct (emit_first calls e) as (Hc & _ & m1 & m2 & Hspan & Hm).
    pose proof (emit_call_all_ended (emit (registered calls) e) events
                  Hcap Hc) as Hrest.
    unfold emit_call_all in Hrest. rewrite Hrest, Hspan, ends_app.
    change [m1; m2; span_end] with ([m1; m2] ++ [span_end]).
    rewrite ends_app, Hm. simpl. lia.
Qed.

End CallListenerProperties.

Lemma span_ended_once_with_metadata_witness :
  ends (span (emit_call_all (H := example_utils) capture_one (registered [])
                [metadata "a"%string; completion (error an_error);
                 metadata "b"%string;
                 completion (status {| status_code := 0 |})]))
  = (ends []
     + (if has_completion
             [metadata "a"%string; completion (error an_error);
              metadata "b"%string;
              completion (status {| status_code := 0 |})]
        then 1 else 0))%nat.
Proof.
  apply (@span_ended_once_with_metadata example_utils string capture_one []).
  reflexivity.
Defined.

(** ** More on getMetadata *)

(** The two outcomes of [getMetadata]. *)
Lemma getMetadata_cases (grpcClient : GrpcJs) (original : GrpcClientFunc)
    (h : Objects) (args : list JsValue) :
  (∃ (k : nat) (m : JsValue),
     args !! k = Some m
     ∧ isMetadata h m = true
     ∧ getMetadata grpcClient original h args = (args, h, m))
  ∨ (Forall (λ arg, isMetadata h arg = false) args
     ∧ h !! fresh (dom h) = None
     ∧ getMetadata grpcClient original h args
       = (take (insertion_index original args) args
            ++ JObject (fresh (dom h))
            :: drop (insertion_index original args) args,
          <[fresh (dom h) := Metadata_properties grpcClient]> h,
          JObject (fresh (dom h)))).
Proof.
  destruct (findIndex_cases (isMetadata h) args)
    as [[Hnone Hall]|(k & m & Hk & Hl & Hm & Hbefore)].
  - right. split; [done|]. split; [apply not_elem_of_dom, is_fresh|].
    unfold getMetadata, new_Metadata, insertion_index. rewrite Hnone. simpl.
    destruct (requestStream original); simpl.
    + by rewrite (splice_insert_at args 0).
    + by rewrite (splice_insert_at args 1).
  - left. exists k, m. split; [done|]. split; [done|].
    unfold getMetadata. rewrite Hk, bool_decide_eq_false_2 by lia.
    unfold array_get. rewrite bool_decide_eq_true_2 by lia.
    by rewrite Nat2Z.id, Hl.
Qed.

(** X19. Whatever the arguments, after [getMetadata] the metadata it
    returns is among them; the arguments it was given are all still there,
    in their order, with at most one more; and the objects that existed
    are untouched. *)
Theorem getMetadata_result_in_args (grpcClient : GrpcJs)
    (original : GrpcClientFunc) (h : Objects) (args : list JsValue) :
  (getMetadata grpcClient original h args).2
    ∈ (getMetadata grpcClient original h args).1.1
  ∧ args `sublist_of` (getMetadata grpcClient original h args).1.1
  ∧ (length args ≤ length (getMetadata grpcClient original h args).1.1
     ≤ S (length args))%nat
  ∧ h ⊆ (getMetadata grpcClient original h args).1.2.
Proof.
  destruct (getMetadata_cases grpcClient original h args)
    as [(k & m & Hl & _ & ->)|(_ & Hfresh & ->)]; simpl.
  - split; [by eapply list_elem_of_lookup_2|]. split; [done|].
    split; [lia|done].
  - split; [apply elem_of_app; right; left|]. split.
    { rewrite <- (take_drop (insertion_index original args) args) at 1.
      apply sublist_app; [done|]. by apply sublist_cons. }
    split.
    { rewrite length_app, length_take. simpl. rewrite length_drop. lia. }
    by apply insert_subseteq.
Qed.

Lemma is_object_dec (x : JsValue) (l : loc) : x = JObject l ∨ x ≠ JObject l.
Proof.
  destruct x as [| | | | | |l']; try (by right).
  destruct (decide (l' = l)) as [->|Hne]; [by left|right; congruence].
Qed.

Lemma property_insert_ne (h : Objects) (l : loc) (o : gmap string JsValue)
    (arg : JsValue) (key : string) :
  arg ≠ JObject l → property (<[l := o]> h) arg key = property h arg key.
Proof.
  intros Hne. destruct arg as [| | | | | |l']; try done. simpl.
  rewrite lookup_insert_ne; [done|]. congruence.
Qed.

Lemma isMetadata_insert_ne (h : Objects) (l : loc) (o : gmap string JsValue)
    (arg : JsValue) :
  arg ≠ JObject l → isMetadata (<[l := o]> h) arg = isMetadata h arg.
Proof.
  intros Hne. unfold isMetadata. by rewrite !property_insert_ne.
Qed.

Lemma isMetadata_new (h : Objects) (l : loc) (o : gmap string JsValue) :
  Metadata_shaped o → isMetadata (<[l := o]> h) (JObject l) = true.
Proof.
  intros [Hrepr Hmap]. unfold isMetadata. simpl.
  rewrite lookup_insert_eq. simpl. rewrite Hrepr, Hmap. done.
Qed.

(** X20. When the injected [Metadata] constructor makes objects that
    [getMetadata] recognises, a second [getMetadata] on the arguments the
    first one left finds the same metadata and changes nothing: the
    metadata is inserted at most once. *)
Theorem getMetadata_twice (grpcClient : GrpcJs) (original : GrpcClientFunc)
    (h : Objects) (args : list JsValue) :
  Metadata_shaped (Metadata_properties grpcClient) →
  getMetadata grpcClient original
    (getMetadata grpcClient original h args).1.2
    (getMetadata grpcClient original h args).1.1
  = getMetadata grpcClient original h args.
Proof.
  intros Hshape.
  destruct (getMetadata_cases grpcClient original h args)
    as [(k & m & Hl & Hm & Hget)|(Hnone & Hfresh & Hget)].
  - rewrite Hget. simpl. done.
  - rewrite Hget. simpl.
    set (l := fresh (dom h)) in *.
    set (h' := <[l := Metadata_properties grpcClient]> h).
    set (args' := take (insertion_index original args) args
                    ++ JObject l :: drop (insertion_index original args) args).
    assert (∀ x, x ∈ args' → isMetadata h' x = true → x = JObject l)
      as Honly.
    { intros x Hx Hmx. destruct (is_object_dec x l) as [|Hne]; [done|].
      exfalso. unfold h' in Hmx. rewrite isMetadata_insert_ne in Hmx by done.
      assert (x ∈ args) as Hin.
      { rewrite <- (take_drop (insertion_index original args) args).
        unfold args' in Hx. rewrite elem_of_app in Hx |- *.
        destruct Hx as [?|Hx]; [by left|].
        apply elem_of_cons in Hx as [?|?]; [done|by right]. }
      rewrite Forall_forall in Hnone. rewrite (Hnone x Hin) in Hmx. done. }
    destruct (getMetadata_cases grpcClient original h' args')
      as [(k & m & Hl & Hm & ->)|(Hnone' & _)].
    + f_equal. apply Honly; [by eapply list_elem_of_lookup_2|done].
    + exfalso. rewrite Forall_forall in Hnone'.
      assert (JObject l ∈ args') as Hin.
      { unfold args'. apply elem_of_app. right. left. }
      specialize (Hnone' _ Hin). unfold h' in Hnone'.
      by rewrite isMetadata_new in Hnone'.
Qed.

Lemma getMetadata_twice_witness :
  getMetadata a_grpcClient unary
    (getMetadata a_grpcClient unary call_store call_args).1.2
    (getMetadata a_grpcClient unary call_store call_args).1.1
  = getMetadata a_grpcClient unary call_store call_args.
Proof.
  apply (getMetadata_twice a_grpcClient unary call_store call_args).
  split; reflexivity.
Defined.

(** X21. An argument is taken for the metadata exactly when it is an
    object whose [internalRepr] is truthy and whose [getMap] is a function:
    [null], primitives and functions never are, and any object with these
    two properties is, whatever else it holds. *)
Theorem isMetadata_iff (h : Objects) (arg : JsValue) :
  isMetadata h arg = true ↔
  ∃ (l f : loc) (o : gmap string JsValue) (repr : JsValue),
    arg = JObject l
    ∧ h !! l = Some o
    ∧ o !! "internalRepr"%string = Some repr
    ∧ ToBoolean repr = true
    ∧ o !! "getMap"%string = Some (JFunction f).
Proof.
  unfold isMetadata. split.
  - intros H. repeat (apply andb_prop in H as [H ?]).
    destruct arg as [| |b|x|s|f|l]; try done. simpl in *.
    destruct (h !! l) as [o|] eqn:Ho; simpl in *; [|done].
    destruct (o !! "internalRepr"%string) as [repr|] eqn:Hr; simpl in *;
      [|done].
    destruct (o !! "getMap"%string) as [g|] eqn:Hg; simpl in *; [|done].
    destruct g as [| | | | |f|]; try done.
    by exists l, f, o, repr.
  - intros (l & f & o & repr & -> & Ho & Hr & Ht & Hg). simpl.
    rewrite Ho. simpl. rewrite Hr, Hg. simpl. by rewrite Ht.
Qed.
